(** * Fractal-mask LSB steganography: the codec of package [stego]

    A shallow embedding of the [FractalStego] codec of package [stego]
    ([Embed], [Extract], [generateFractalPattern], [bytesToBits],
    [bitsToBytes]) together with the types of [stego/interface.go], and the
    properties of the codec stated by the specification.

    Modelling conventions.
    - Go [byte]/[uint8] is [Byte.byte]; its operators go through [N] and
      are reduced modulo 256 ([uint8.of_N]).
    - Go [uint32] is an [N] reduced modulo 2^32 where the source converts
      or multiplies ([uint32], [uint32_mul]).
    - Go [int] values that are sizes, indices and loop counters ([len],
      [Dx], [Dy], [x], [y], [bitPos], ...) are [nat]: they are sizes of
      objects held in memory on a 64-bit platform, whose products do not
      leave the machine word.  [Iterations] is a user-supplied [int] and
      is a [Z].
    - Go [float64] is the kernel's binary64 [PrimFloat.float]; the
      operations are applied one by one in source order (no fused
      multiply-add).
    - A slice is a [list]; [s[i] = v] is stdpp's [<[i:=v]> s].  Every index
      the source uses is in range (see the loops), so no run-time panic is
      reachable and none is modelled.
    - [image.Image] is its bounds, the rectangle from [(MinX, MinY)] of
      extent [Dx], [Dy], and the colour [At x y] that
      [color.RGBAModel.Convert(img.At(x, y))] gives at every point, in the
      image's own coordinates.  The loops of the codec count [x] and [y]
      from 0 whatever [Bounds().Min] is, and so do the models.
    - A Go result [(v, err)] is a pair of options, [nil] being [None]. *)

From Stdlib Require Import PrimFloat.
From Stdlib Require Uint63 Floats.
From Stdlib Require Import ZArith NArith Lia Bool.
From Stdlib Require Import Strings.Byte.
From stdpp Require Import base list list_numbers strings.

Local Open Scope nat_scope.

(** ** Machine integers *)

(** The zero value of [byte], read where a slice index has no element. *)
#[global] Instance byte_inhabited : Inhabited byte := populate x00.

(** [==] on bytes is decidable. *)
#[global] Instance byte_eq_decision : EqDecision byte := Byte.byte_eq_dec.

Module uint8.

(** Conversion of an unsigned value to [uint8]: the low 8 bits. *)
Definition of_N (n : N) : byte :=
  match Byte.of_N (n mod 256) with
  | Some b => b
  | None => x00
  end.

(** [a & b] *)
Definition and (a b : byte) : byte := of_N (N.land (Byte.to_N a) (Byte.to_N b)).

(** [a | b] *)
Definition or (a b : byte) : byte := of_N (N.lor (Byte.to_N a) (Byte.to_N b)).

(** [a >> k] *)
Definition shr (a : byte) (k : nat) : byte := of_N (N.shiftr (Byte.to_N a) (N.of_nat k)).

(** [a << k] *)
Definition shl (a : byte) (k : nat) : byte := of_N (N.shiftl (Byte.to_N a) (N.of_nat k)).

(** Bit [j] of a byte, bit 0 being the least significant. *)
Definition testbit (a : byte) (j : nat) : bool := N.testbit (Byte.to_N a) (N.of_nat j).

End uint8.

(** [uint32(n)]: conversion to 32 bits drops the high bits. *)
Definition uint32 (n : N) : N := (n mod 2 ^ 32)%N.

(** [a * b] on [uint32] operands. *)
Definition uint32_mul (a b : N) : N := uint32 (a * b).

(** Package [encoding/binary], [BigEndian]. *)
Module BigEndian.

(** [PutUint32(b, v)] on a fresh 4-byte slice [b]. *)
Definition PutUint32 (v : N) : list byte :=
  [ uint8.of_N (N.shiftr v 24); uint8.of_N (N.shiftr v 16);
    uint8.of_N (N.shiftr v 8); uint8.of_N v ].

(** [Uint32(b)]: [b[3] | b[2]<<8 | b[1]<<16 | b[0]<<24]. *)
Definition Uint32 (b : list byte) : N :=
  N.lor (N.lor (N.lor (Byte.to_N (b !!! 3))
                      (N.shiftl (Byte.to_N (b !!! 2)) 8))
               (N.shiftl (Byte.to_N (b !!! 1)) 16))
        (N.shiftl (Byte.to_N (b !!! 0)) 24).

End BigEndian.

(** ** Loops *)

Section Loops.
Context {S : Type}.

(** [for i := i0; i < i0 + n && cond(s); i++ { s = body(i, s) }], with
    [n] the number of values of [i] still to visit. *)
Fixpoint for_from (cond : S → bool) (body : nat → S → S) (i n : nat) (s : S) : S :=
  match n with
  | 0 => s
  | Datatypes.S n' => if cond s then for_from cond body (Datatypes.S i) n' (body i s) else s
  end.

(** [for i := 0; i < n && cond(s); i++ { ... }] *)
Definition for_while (cond : S → bool) (body : nat → S → S) (n : nat) (s : S) : S :=
  for_from cond body 0 n s.

(** [for i := 0; i < n; i++ { ... }] *)
Definition for_range (body : nat → S → S) (n : nat) (s : S) : S :=
  for_while (λ _, true) body n s.

End Loops.

(** ** Bit codec *)

(** [[
func bytesToBits(data []byte) []byte {
	bits := make([]byte, len(data)*8)
	for i, b := range data {
		for j := 0; j < 8; j++ {
			bits[i*8+j] = (b >> (7 - j)) & 1
		}
	}
	return bits
}
]] *)
Definition bytesToBits (data : list byte) : list byte :=
  let bits := replicate (length data * 8) x00 in
  for_range (λ i bits,
    let b := data !!! i in
    for_range (λ j bits,
      <[i * 8 + j := uint8.and (uint8.shr b (7 - j)) x01]> bits) 8 bits)
    (length data) bits.

(** [[
func bitsToBytes(bits []byte) []byte {
	bytes := make([]byte, (len(bits)+7)/8)
	for i, bit := range bits {
		if bit == 1 {
			bytes[i/8] |= 1 << (7 - (i % 8))
		}
	}
	return bytes
}
]] *)
Definition bitsToBytes (bits : list byte) : list byte :=
  let bytes := replicate ((length bits + 7) / 8) x00 in
  for_range (λ i bytes,
    let bit := bits !!! i in
    if Byte.eqb bit x01
    then <[i / 8 := uint8.or (bytes !!! (i / 8)) (uint8.shl x01 (7 - i `mod` 8))]> bytes
    else bytes)
    (length bits) bytes.

(** ** Floating point: [float64], [complex128], [math.Hypot], [cmplx.Abs] *)

Module float64.
Import PrimFloat.
Local Open Scope float_scope.

(** [float64(n)] for a non-negative [int]. *)
Definition of_int (n : nat) : float := of_uint63 (Uint63.of_Z (Z.of_nat n)).

(** [math.IsInf(f, 1)] *)
Definition IsInf_pos (f : float) : bool := (f =? infinity).

(** [math.IsNaN(f)] *)
Definition IsNaN (f : float) : bool := negb (f =? f).

(** [math.Hypot(p, q)], the portable implementation of package [math]. *)
Definition Hypot (p q : float) : float :=
  let p := abs p in
  let q := abs q in
  if IsInf_pos p || IsInf_pos q then infinity
  else if IsNaN p || IsNaN q then nan
  else
    let '(p, q) := if p <? q then (q, p) else (p, q) in
    if p =? 0 then 0
    else
      let q := q / p in
      p * sqrt (1 + q * q).

End float64.

Module complex128.
Import PrimFloat.
Local Open Scope float_scope.

Record t := complex { real : float; imag : float }.

(** The zero value of [var z complex128]. *)
Definition zero : t := complex 0 0.

(** [a * b]: the compiler's expansion of a complex product. *)
Definition mul (a b : t) : t :=
  complex (real a * real b - imag a * imag b) (real a * imag b + imag a * real b).

(** [a + b] *)
Definition add (a b : t) : t := complex (real a + real b) (imag a + imag b).

(** [cmplx.Abs(z)] *)
Definition Abs (z : t) : float := float64.Hypot (real z) (imag z).

End complex128.

(** ** The types of [stego/interface.go] *)

(** [[
type FractalParams struct {
	Type string
	Iterations int
	Threshold float64
}
]]
    The field [Type] is spelled [Type_] ([Type] is reserved). *)
Record FractalParams := {
  Type_ : string;
  Iterations : Z;
  Threshold : PrimFloat.float
}.

(** [[
type Config struct {
	EmbeddingRate float64
	FractalParams *FractalParams
}
]]
    The pointer field is an [option]; it is spelled [FractalParams_]
    beside the type of the same name. *)
Record Config := {
  EmbeddingRate : PrimFloat.float;
  FractalParams_ : option FractalParams
}.

(** Go's [error] values here are all made by [errors.New(msg)]: an error is
    its message.  The three messages of the codec, under the names the
    specification gives to the failures. *)
Definition error := string.
Definition MissingParameters : error := "fractal parameters are required"%string.
Definition CapacityExceeded : error := "image too small to embed data"%string.
Definition InvalidLength : error := "invalid data length extracted"%string.

(** ** Images *)

Module color.

(** [color.RGBA] *)
Record RGBA := { R : byte; G : byte; B : byte; A : byte }.

(** The zero colour [color.RGBA{}]. *)
Definition zero : RGBA := {| R := x00; G := x00; B := x00; A := x00 |}.

End color.

Module image.

(** An image: [Bounds()] is the rectangle with [Min = (MinX, MinY)] and
    [Max = (MinX + Dx, MinY + Dy)], so that [Bounds().Dx() = Dx] and
    [Bounds().Dy() = Dy]; [At x y] is the colour at the point [(x, y)],
    converted to [color.RGBA]. *)
Record Image := {
  MinX : Z;
  MinY : Z;
  Dx : nat;
  Dy : nat;
  At : Z → Z → color.RGBA
}.

(** [(image.Point{x, y}.In(p.Rect))]:
    [r.Min.X <= p.X && p.X < r.Max.X && r.Min.Y <= p.Y && p.Y < r.Max.Y]. *)
Definition In (x y : Z) (p : Image) : bool :=
  ((MinX p <=? x) && (x <? MinX p + Z.of_nat (Dx p))
   && (MinY p <=? y) && (y <? MinY p + Z.of_nat (Dy p)))%Z.

(** [p.RGBAAt(x, y)] on an [*image.RGBA]: the zero colour outside the bounds. *)
Definition RGBAAt (p : Image) (x y : Z) : color.RGBA :=
  if In x y p then At p x y else color.zero.

(** [p.SetRGBA(x, y, c)] on an [*image.RGBA]: nothing outside the bounds. *)
Definition SetRGBA (p : Image) (x y : Z) (c : color.RGBA) : Image :=
  if In x y p
  then {| MinX := MinX p; MinY := MinY p; Dx := Dx p; Dy := Dy p;
          At := λ x' y', if ((x' =? x) && (y' =? y))%Z then c else At p x' y' |}
  else p.

(** [stego := image.NewRGBA(bounds); draw.Draw(stego, bounds, cover,
    bounds.Min, draw.Src)]: a fresh RGBA image with the bounds of [cover],
    holding the pixels of [cover] at the same points. *)
Definition NewRGBA_Draw (cover : Image) : Image :=
  {| MinX := MinX cover; MinY := MinY cover; Dx := Dx cover; Dy := Dy cover;
     At := λ x y, if In x y cover then At cover x y else color.zero |}.

End image.

(** ** Pattern generator *)

(** The escape-time loop of [generateFractalPattern] for one pixel:
[[
	iter := 0
	for ; iter < params.Iterations; iter++ {
		if params.Type == "Julia" {
			z = z*z + complex(-0.8, 0.156)
		} else {
			z = z*z + c
		}
		if cmplx.Abs(z) > params.Threshold {
			break
		}
	}
]]
    [escape params c fuel iter z] runs it from the state [(iter, z)] and
    returns the final [iter]; [fuel] bounds the number of rounds. *)
Fixpoint escape (params : FractalParams) (c : complex128.t)
    (fuel : nat) (iter : Z) (z : complex128.t) : Z :=
  match fuel with
  | 0 => iter
  | S fuel' =>
    if (iter <? Iterations params)%Z then
      let z :=
        if String.eqb (Type_ params) "Julia"
        then complex128.add (complex128.mul z z) (complex128.complex (-0.8) 0.156)%float
        else complex128.add (complex128.mul z z) c in
      if PrimFloat.ltb (Threshold params) (complex128.Abs z)
      then iter
      else escape params c fuel' (iter + 1)%Z z
    else iter
  end.

(** The body of the pixel loop: the value stored at [pattern[y*width+x]]. *)
Definition fractalPixel (width height : nat) (params : FractalParams) (x y : nat) : bool :=
  let nx := (float64.of_int x / float64.of_int width * 3.5 - 2.5)%float in
  let ny := (float64.of_int y / float64.of_int height * 2.0 - 1.0)%float in
  let c := complex128.complex nx ny in
  let iter := escape params c (Z.to_nat (Iterations params)) 0%Z complex128.zero in
  (iter =? Iterations params)%Z.

(** [[
func (f *FractalStego) generateFractalPattern(width, height int, params *FractalParams) []bool {
	pattern := make([]bool, width*height)
	for y := 0; y < height; y++ {
		for x := 0; x < width; x++ {
			...
			pattern[y*width+x] = iter == params.Iterations
		}
	}
	return pattern
}
]] *)
Definition generateFractalPattern (width height : nat) (params : FractalParams) : list bool :=
  let pattern := replicate (width * height) false in
  for_range (λ y pattern,
    for_range (λ x pattern,
      <[y * width + x := fractalPixel width height params x y]> pattern)
      width pattern)
    height pattern.

(** ** Embedder *)

(** The loop condition shared by both loops of [Embed]: [bitPos < len(allBits)]. *)
Definition embed_cond (allBits : list byte) (st : image.Image * nat) : bool :=
  st.2 <? length allBits.

(** The body of the inner loop of [Embed]:
[[
	if pattern[y*width+x] {
		c := stego.RGBAAt(x, y)
		c.B = (c.B & 0xFE) | allBits[bitPos]
		stego.SetRGBA(x, y, c)
		bitPos++
	}
]] *)
Definition embed_body (pattern : list bool) (allBits : list byte) (width : nat)
    (y x : nat) (st : image.Image * nat) : image.Image * nat :=
  let '(stego, bitPos) := st in
  if (pattern !!! (y * width + x) : bool) then
    let c := image.RGBAAt stego (Z.of_nat x) (Z.of_nat y) in
    let c := {| color.R := color.R c; color.G := color.G c;
                color.B := uint8.or (uint8.and (color.B c) xfe) (allBits !!! bitPos);
                color.A := color.A c |} in
    (image.SetRGBA stego (Z.of_nat x) (Z.of_nat y) c, S bitPos)
  else (stego, bitPos).

(** [func (f *FractalStego) Embed(cover image.Image, data []byte, config Config) (image.Image, error)] *)
Definition Embed (cover : image.Image) (data : list byte) (config : Config)
    : option image.Image * option error :=
  match FractalParams_ config with
  | None => (None, Some MissingParameters)
  | Some params =>
    let width := image.Dx cover in
    let height := image.Dy cover in
    let requiredPixels := 32 + length data * 8 in
    if width * height <? requiredPixels then (None, Some CapacityExceeded)
    else
      let stego := image.NewRGBA_Draw cover in
      let pattern := generateFractalPattern width height params in
      let lengthBits := BigEndian.PutUint32 (uint32 (N.of_nat (length data))) in
      let allBits := bytesToBits lengthBits ++ bytesToBits data in
      let '(stego, _) :=
        for_while (embed_cond allBits)
          (λ y, for_while (embed_cond allBits) (embed_body pattern allBits width y) width)
          height (stego, 0) in
      (Some stego, None)
  end.

(** ** Extractor *)

(** The condition of the header loops of [Extract]: [extractedBits < 32]. *)
Definition header_cond (st : list byte * nat) : bool := st.2 <? 32.

(** The body of the inner header loop:
[[
	if pattern[y*width+x] {
		c := color.RGBAModel.Convert(stego.At(x, y)).(color.RGBA)
		bytePos := extractedBits / 8
		bitPos := 7 - (extractedBits % 8)
		lengthBytes[bytePos] |= (c.B & 1) << bitPos
		extractedBits++
	}
]] *)
Definition header_body (stego : image.Image) (pattern : list bool) (width : nat)
    (y x : nat) (st : list byte * nat) : list byte * nat :=
  let '(lengthBytes, extractedBits) := st in
  if (pattern !!! (y * width + x) : bool) then
    let c := image.At stego (Z.of_nat x) (Z.of_nat y) in
    let bytePos := extractedBits / 8 in
    let bitPos := 7 - extractedBits `mod` 8 in
    (<[bytePos := uint8.or (lengthBytes !!! bytePos)
                           (uint8.shl (uint8.and (color.B c) x01) bitPos)]> lengthBytes,
     S extractedBits)
  else (lengthBytes, extractedBits).

(** The condition of the payload loops: [extractedBits < len(dataBits)];
    the state is [(dataBits, extractedBits, skippedTimes)]. *)
Definition data_cond (st : list byte * nat * nat) : bool :=
  st.1.2 <? length st.1.1.

(** The body of the inner payload loop:
[[
	pixelIndex := y*width + x
	if skippedTimes < 32 && pattern[pixelIndex] {
		skippedTimes++
		continue
	}
	if pattern[pixelIndex] {
		c := color.RGBAModel.Convert(stego.At(x, y)).(color.RGBA)
		dataBits[extractedBits] = c.B & 1
		extractedBits++
	}
]] *)
Definition data_body (stego : image.Image) (pattern : list bool) (width : nat)
    (y x : nat) (st : list byte * nat * nat) : list byte * nat * nat :=
  let '(dataBits, extractedBits, skippedTimes) := st in
  let pixelIndex := y * width + x in
  if (skippedTimes <? 32) && (pattern !!! pixelIndex : bool) then
    (dataBits, extractedBits, S skippedTimes)
  else if (pattern !!! pixelIndex : bool) then
    let c := image.At stego (Z.of_nat x) (Z.of_nat y) in
    (<[extractedBits := uint8.and (color.B c) x01]> dataBits, S extractedBits, skippedTimes)
  else (dataBits, extractedBits, skippedTimes).

(** [func (f *FractalStego) Extract(stego image.Image, config Config) ([]byte, error)] *)
Definition Extract (stego : image.Image) (config : Config)
    : option (list byte) * option error :=
  match FractalParams_ config with
  | None => (None, Some MissingParameters)
  | Some params =>
    let width := image.Dx stego in
    let height := image.Dy stego in
    let pattern := generateFractalPattern width height params in
    let '(lengthBytes, _) :=
      for_while header_cond
        (λ y, for_while header_cond (header_body stego pattern width y) width)
        height (replicate 4 x00, 0) in
    let length := BigEndian.Uint32 lengthBytes in
    if (length =? 0)%N || (uint32 (N.of_nat (width * height)) <? length)%N
    then (None, Some InvalidLength)
    else
      let dataBits := replicate (N.to_nat (uint32_mul length 8)) x00 in
      let '(dataBits, _, _) :=
        for_while data_cond
          (λ y, for_while data_cond (data_body stego pattern width y) width)
          height (dataBits, 0, 0) in
      (Some (bitsToBytes dataBits), None)
  end.

(** ** The algorithm registry *)

(** [[
type Steganographer interface {
	Embed(cover image.Image, data []byte, config Config) (image.Image, error)
	Extract(stego image.Image, config Config) ([]byte, error)
	Name() string
}
]]
    A value of the interface is its method set. *)
Record Steganographer := {
  Steganographer_Embed :
    image.Image → list byte → Config → option image.Image * option error;
  Steganographer_Extract :
    image.Image → Config → option (list byte) * option error;
  Steganographer_Name : string
}.

(** The source of the codec exists in two revisions, which agree in
    every function but [Name()]: the commented revision, a file of its
    own, has [func (f *FractalStego) Name() string { return "Fractal" }];
    the uncommented one, which follows the interface in
    [stego/interface.go], returns ["Фрактал"].  Nothing in the program
    calls [Name()]. *)
Inductive Revision := Commented | Uncommented.

(** [func (f *FractalStego) Name() string], in either revision. *)
Definition Name (rev : Revision) : string :=
  match rev with
  | Commented => "Fractal"
  | Uncommented => "Фрактал"
  end.

(** [NewFractalStego()], seen through the interface [Steganographer]. *)
Definition NewFractalStego (rev : Revision) : Steganographer :=
  {| Steganographer_Embed := Embed;
     Steganographer_Extract := Extract;
     Steganographer_Name := Name rev |}.

(** [[
func Factory(algorithmName string) (Steganographer, error) {
	switch algorithmName {
	case "Fractal":
		return NewFractalStego(), nil
	default:
		return nil, fmt.Errorf("unknown steganography algorithm: %s", algorithmName)
	}
}
]]
    [rev] is the revision of the codec that the package is built with. *)
Definition Factory (rev : Revision) (algorithmName : string) :
    option Steganographer * option error :=
  if String.eqb algorithmName "Fractal"
  then (Some (NewFractalStego rev), None)
  else (None, Some ("unknown steganography algorithm: " +:+ algorithmName)).

(** ** The handlers of the application (package [main])

    The handlers read the state of the widgets and call the operating
    system, the image codecs and [strconv]; their effects are dialogs and
    files.  The widgets' state is the record [StegoApp], the library calls
    are the fields of a [World], and a handler returns the effects it
    performs, in order.  The handlers take the revision of the codec that
    package [stego] is built with. *)

Module main.

(** [const AlgorithmFractal = "Фрактал"] *)
Definition AlgorithmFractal : string := "Фрактал".

(** The choices of the fractal type that [createEmbedTab] offers:
    [widget.NewSelect([]string{"Мандельброт", "Жулиа"}, nil)]. *)
Definition fractalTypeOptions : list string := ["Мандельброт"; "Жулиа"]%string.

(** The widget state a handler reads: [Entry.Text], [RadioGroup.Selected],
    [Select.Selected] and [Slider.Value] of the fields of [StegoApp]. *)
Record StegoApp := {
  coverImagePath : string;
  secretDataPath : string;
  stegoImagePath : string;
  outputPath : string;
  algorithm : string;
  embeddingRate : float;
  fractalType : string;
  fractalIterations : string;
  fractalThreshold : string
}.

(** The result of a library call: a value or an error. *)
Inductive result (A : Type) : Type :=
  | Ok (a : A)
  | Err (e : error).
Arguments Ok {A} a.
Arguments Err {A} e.

(** The library calls of the handlers. A file is its content. *)
Record World := {
  os_Open : string → result (list byte);
  os_ReadFile : string → result (list byte);
  os_Create : string → option error;
  os_WriteFile : string → list byte → option error;
  image_Decode : list byte → result image.Image;
  png_Encode : image.Image → option error;
  strconv_Atoi : string → result Z;
  strconv_ParseFloat : string → result float;
  imaging_Resize : image.Image → image.Image
}.

(** What a handler does to the outside. *)
Inductive effect : Type :=
  | ShowError (msg : string)
  | ShowInformation (title message : string)
  | CreatePNG (path : string) (img : image.Image)
  | WriteFile (path : string) (data : list byte)
  | SetPreview (img : image.Image)
  | NilDereference.

(** [[
func loadImage(path string) (image.Image, error) {
	file, err := os.Open(path)
	if err != nil {
		return nil, err
	}
	...
	img, _, err := image.Decode(file)
	if err != nil {
		return nil, err
	}
	return img, nil
}
]] *)
Definition loadImage (w : World) (path : string) : option image.Image * option error :=
  match os_Open w path with
  | Err err => (None, Some err)
  | Ok file =>
    match image_Decode w file with
    | Err err => (None, Some err)
    | Ok img => (Some img, None)
    end
  end.

(** [[
func saveImage(path string, img image.Image) error {
	file, err := os.Create(path)
	if err != nil {
		return err
	}
	...
	return png.Encode(file, img)
}
]]
    with the file it writes. *)
Definition saveImage (w : World) (path : string) (img : image.Image)
    : list effect * option error :=
  match os_Create w path with
  | Some err => ([], Some err)
  | None => ([CreatePNG path img], png_Encode w img)
  end.

(** [func (a *StegoApp) loadImagePreview(path string, img *canvas.Image)] *)
Definition loadImagePreview (w : World) (path : string) : list effect :=
  match os_Open w path with
  | Err err => [ShowError err]
  | Ok file =>
    match image_Decode w file with
    | Err err => [ShowError err]
    | Ok i => [SetPreview (imaging_Resize w i)]
    end
  end.

(** The block of [embedData] and [extractData] that fills
    [config.FractalParams]:
[[
	config := stego.Config{EmbeddingRate: a.embeddingRate.Value}
	if a.algorithm.Selected == AlgorithmFractal {
		iterations, err := strconv.Atoi(a.fractalIterations.Text)
		if err != nil { dialog.ShowError(fmt.Errorf("invalid iterations value: %w", err), a.window); return }
		threshold, err := strconv.ParseFloat(a.fractalThreshold.Text, 64)
		if err != nil { dialog.ShowError(fmt.Errorf("invalid threshold value: %w", err), a.window); return }
		config.FractalParams = &stego.FractalParams{Type: a.fractalType.Selected, Iterations: iterations, Threshold: threshold}
	}
]]
    It yields the configuration, or the error dialog it returns with. *)
Definition buildConfig (w : World) (a : StegoApp) : Config + list effect :=
  let config := {| EmbeddingRate := embeddingRate a; FractalParams_ := None |} in
  if String.eqb (algorithm a) AlgorithmFractal then
    match strconv_Atoi w (fractalIterations a) with
    | Err err => inr [ShowError ("invalid iterations value: " +:+ err)]
    | Ok iterations =>
      match strconv_ParseFloat w (fractalThreshold a) with
      | Err err => inr [ShowError ("invalid threshold value: " +:+ err)]
      | Ok threshold =>
        inl {| EmbeddingRate := embeddingRate a;
               FractalParams_ := Some {| Type_ := fractalType a;
                                         Iterations := iterations;
                                         Threshold := threshold |} |}
      end
    end
  else inl config.

(** [func (a *StegoApp) embedData()] *)
Definition embedData (rev : Revision) (w : World) (a : StegoApp) : list effect :=
  if String.eqb (coverImagePath a) "" then [ShowError "please select a cover image"]
  else if String.eqb (secretDataPath a) "" then [ShowError "please select a secret data file"]
  else if String.eqb (outputPath a) "" then [ShowError "please specify an output path"]
  else
    match loadImage w (coverImagePath a) with
    | (_, Some err) => [ShowError ("failed to load cover image: " +:+ err)]
    | (coverImage, None) =>
      match os_ReadFile w (secretDataPath a) with
      | Err err => [ShowError ("failed to load secret data: " +:+ err)]
      | Ok secretData =>
        match buildConfig w a with
        | inr dialogs => dialogs
        | inl config =>
          match Factory rev (algorithm a) with
          | (_, Some err) => [ShowError err]
          | (None, None) => [NilDereference]
          | (Some algorithm, None) =>
            match coverImage with
            | None => [NilDereference]
            | Some coverImage =>
              match Steganographer_Embed algorithm coverImage secretData config with
              | (_, Some err) => [ShowError ("failed to embed data: " +:+ err)]
              | (None, None) => [NilDereference]
              | (Some stegoImage, None) =>
                match saveImage w (outputPath a) stegoImage with
                | (written, Some err) =>
                    written ++ [ShowError ("failed to save stego image: " +:+ err)]
                | (written, None) =>
                    written ++ loadImagePreview w (outputPath a)
                    ++ [ShowInformation "Успех" "Данные успешно сокрыты"]
                end
              end
            end
          end
        end
      end
    end.

(** [func (a *StegoApp) extractData()] *)
Definition extractData (rev : Revision) (w : World) (a : StegoApp) : list effect :=
  if String.eqb (stegoImagePath a) "" then [ShowError "please select a stego image"]
  else if String.eqb (outputPath a) "" then [ShowError "please specify an output path"]
  else
    match loadImage w (stegoImagePath a) with
    | (_, Some err) => [ShowError ("failed to load stego image: " +:+ err)]
    | (stegoImage, None) =>
      match buildConfig w a with
      | inr dialogs => dialogs
      | inl config =>
        match Factory rev (algorithm a) with
        | (_, Some err) => [ShowError err]
        | (None, None) => [NilDereference]
        | (Some stegoAlgorithm, None) =>
          match stegoImage with
          | None => [NilDereference]
          | Some stegoImage =>
            match Steganographer_Extract stegoAlgorithm stegoImage config with
            | (_, Some err) => [ShowError ("failed to extract data: " +:+ err)]
            | (data, None) =>
              let data := default [] data in
              match os_WriteFile w (outputPath a) data with
              | Some err =>
                  [WriteFile (outputPath a) data;
                   ShowError ("failed to save extracted data: " +:+ err)]
              | None =>
                  [WriteFile (outputPath a) data;
                   ShowInformation "Успех" "Данные успешно извлечены"]
              end
            end
          end
        end
      end
    end.

End main.

(** ** Specification-level notions

    Used to state the properties of the codec; none of them is called by
    the code above. *)

(** [carrierCount(mask)]: the number of [true] entries of a mask. *)
Definition carrierCount (mask : list bool) : nat :=
  length (filter (λ b : bool, b = true) mask).

(** The pixel indices [y*width+x] below [n] that a mask marks, in row-major
    order. *)
Definition carrierPositions (mask : list bool) (n : nat) : list nat :=
  filter (λ i, mask !! i = Some true) (seq 0 n).

(** The number of carrier positions before index [k]: the place in the bit
    stream of a carrier at [k]. *)
Definition rank (mask : list bool) (k : nat) : nat :=
  length (carrierPositions mask k).

(** A colour with only the least-significant bit of blue replaced. *)
Definition withBlueLSB (c : color.RGBA) (bit : byte) : color.RGBA :=
  {| color.R := color.R c; color.G := color.G c;
     color.B := uint8.or (uint8.and (color.B c) xfe) bit;
     color.A := color.A c |}.

(** The points the scans of [Embed] and [Extract] visit: [0 <= x < width],
    [0 <= y < height]. *)
Definition scanned (img : image.Image) (x y : Z) : bool :=
  ((0 <=? x) && (x <? Z.of_nat (image.Dx img))
   && (0 <=? y) && (y <? Z.of_nat (image.Dy img)))%Z.

(** The index [y*width + x] of a point in the mask. *)
Definition indexOf (img : image.Image) (x y : Z) : nat :=
  Z.to_nat y * image.Dx img + Z.to_nat x.

(** A pixel position consumed by [Embed]: inside the bounds of the image,
    visited by the scan, marked by the mask, and early enough in the scan
    to receive one of the [n] bits. *)
Definition consumed (cover : image.Image) (mask : list bool) (n : nat) (x y : Z) : bool :=
  let i := indexOf cover x y in
  image.In x y cover && scanned cover x y
  && bool_decide (mask !! i = Some true) && (rank mask i <? n).

(** The pixel at [(x, y)] once the scan of [Embed] has passed the indices
    below [k]. *)
Definition embedPixel (cover : image.Image) (mask : list bool) (bits : list byte)
    (k : nat) (x y : Z) : color.RGBA :=
  let i := indexOf cover x y in
  let c := image.At (image.NewRGBA_Draw cover) x y in
  if consumed cover mask (length bits) x y && (i <? k)
  then withBlueLSB c (bits !!! rank mask i)
  else c.

(** The pixel that the scans read at the index [i = y*width + x]: the
    colour at the point [(x, y)]. *)
Definition pixelAt (img : image.Image) (i : nat) : color.RGBA :=
  image.At img (Z.of_nat (i `mod` image.Dx img)) (Z.of_nat (i / image.Dx img)).

(** The least-significant blue bit of the pixel with index [i], as the
    byte 0 or 1. *)
Definition pixelLSB (img : image.Image) (i : nat) : byte :=
  uint8.and (color.B (pixelAt img i)) x01.

(** The blue LSBs found at the carrier positions, in row-major order. *)
Definition carrierBits (img : image.Image) (mask : list bool) : list byte :=
  pixelLSB img <$> carrierPositions mask (image.Dx img * image.Dy img).

(** Bit [i] of a byte sequence read most-significant bit first: bit
    [7 - i%8] of byte [i/8]. *)
Definition bitAt (bs : list byte) (i : nat) : bool :=
  uint8.testbit (bs !!! (i / 8)) (7 - i `mod` 8).

(** The bit that [bytesToBits] stores at index [k]. *)
Definition bitOf (data : list byte) (k : nat) : byte :=
  uint8.and (uint8.shr (data !!! (k / 8)) (7 - k `mod` 8)) x01.

(** A bit sequence cut or zero-padded to exactly [n] entries. *)
Definition fit (n : nat) (bits : list byte) : list byte :=
  take n bits ++ replicate (n - length bits) x00.

(** The mask that [Embed] and [Extract] compute for an image. *)
Definition maskOf (img : image.Image) (params : FractalParams) : list bool :=
  generateFractalPattern (image.Dx img) (image.Dy img) params.

(** The bit stream that [Embed] writes: header, then payload. *)
Definition envelope (data : list byte) : list byte :=
  bytesToBits (BigEndian.PutUint32 (uint32 (N.of_nat (length data)))) ++ bytesToBits data.

(** The value of a bit sequence read as a big-endian binary numeral, an
    entry counting as a one when it is the byte 1. *)
Definition bigEndianValue (bits : list byte) : N :=
  fold_left (λ acc b, (2 * acc + N.b2n (Byte.eqb b x01))%N) bits 0%N.

(** The length header of an image: the big-endian value of the blue
    least-significant bits at the first 32 carrier positions (zeros where
    the image has fewer carriers). *)
Definition decodedLength (stego : image.Image) (mask : list bool) : N :=
  bigEndianValue (fit 32 (carrierBits stego mask)).

(** ** Concrete inputs for the examples *)

(** A configuration as the application builds it. *)
Definition fractalConfig (t : string) (n : Z) (thr : float) : Config :=
  {| EmbeddingRate := 0.5%float;
     FractalParams_ := Some {| Type_ := t; Iterations := n; Threshold := thr |} |}.

(** An opaque image of one colour, with bounds [(0,0)-(w,h)]. *)
Definition uniformImage (w h : nat) (r g b : byte) : image.Image :=
  {| image.MinX := 0; image.MinY := 0; image.Dx := w; image.Dy := h;
     image.At := λ _ _, {| color.R := r; color.G := g; color.B := b; color.A := xff |} |}.

(** The same image with bounds [(minX,minY)-(minX+w,minY+h)], as a
    sub-image has. *)
Definition offsetImage (minX minY : Z) (w h : nat) (r g b : byte) : image.Image :=
  {| image.MinX := minX; image.MinY := minY; image.Dx := w; image.Dy := h;
     image.At := λ _ _, {| color.R := r; color.G := g; color.B := b; color.A := xff |} |}.

(** An 8x5 image, bounds [(0,0)-(8,5)], whose blue least-significant
    bits spell, in row-major order, the header 2 (bit 30 set) followed by
    eight ones. *)
Definition shortImage : image.Image :=
  {| image.MinX := 0; image.MinY := 0; image.Dx := 8; image.Dy := 5;
     image.At := λ x y,
       let i := (y * 8 + x)%Z in
       {| color.R := x10; color.G := x20;
          color.B := if ((i =? 30) || (32 <=? i))%Z then x81 else x80;
          color.A := xff |} |}.

(** An 8x5 image, bounds [(0,0)-(8,5)], whose blue least-significant
    bits spell the header 40 (bits 26 and 28 set) followed by eight
    zeros. *)
Definition longHeaderImage : image.Image :=
  {| image.MinX := 0; image.MinY := 0; image.Dx := 8; image.Dy := 5;
     image.At := λ x y,
       let i := (y * 8 + x)%Z in
       {| color.R := x10; color.G := x20;
          color.B := if ((i =? 26) || (i =? 28))%Z then x81 else x80;
          color.A := xff |} |}.

(* ================================================================== *)
(** * Properties *)

(** Replaces a comparison of numbers by its value where [lia] settles it. *)
Ltac know b :=
  first
    [ replace b with true
        by (symmetry;
            first [apply Nat.ltb_lt | apply Nat.leb_le | apply Nat.eqb_eq]; lia)
    | replace b with false
        by (symmetry;
            first [apply Nat.ltb_ge | apply Nat.leb_gt | apply Nat.eqb_neq]; lia) ].

(** ** Loops *)

Section LoopFacts.
Context {S : Type}.
Implicit Types (cond : S → bool) (body : nat → S → S) (s : S).

Lemma for_from_stuck cond body i n s :
  cond s = false → for_from cond body i n s = s.
Proof. intros Hc. destruct n as [|n]; simpl; [done|]. by rewrite Hc. Qed.

Lemma for_from_app cond body i n m s :
  for_from cond body i (n + m) s
  = for_from cond body (i + n) m (for_from cond body i n s).
Proof.
  revert i s. induction n as [|n IH]; intros i s; simpl.
  - by rewrite Nat.add_0_r.
  - destruct (cond s) eqn:Hc.
    + rewrite IH. f_equal. lia.
    + by rewrite for_from_stuck.
Qed.

Lemma for_from_ext cond body body' i n s :
  (∀ j t, i ≤ j < i + n → body j t = body' j t) →
  for_from cond body i n s = for_from cond body' i n s.
Proof.
  revert i s. induction n as [|n IH]; intros i s Hb; simpl; [done|].
  destruct (cond s); [|done].
  rewrite Hb by lia. apply IH. intros j t Hj. apply Hb. lia.
Qed.

(** The invariant rule: [P j s] holds of the state before index [j] is
    visited; an exhausted condition leaves the state as it is. *)
Lemma for_from_ind (P : nat → S → Prop) cond body i n s :
  P i s →
  (∀ j t, i ≤ j < i + n → P j t → cond t = true → P (Datatypes.S j) (body j t)) →
  (∀ j t, i ≤ j < i + n → P j t → cond t = false → P (Datatypes.S j) t) →
  P (i + n) (for_from cond body i n s).
Proof.
  revert i s. induction n as [|n IH]; intros i s H0 Hstep Hstop; simpl.
  - by rewrite Nat.add_0_r.
  - replace (i + Datatypes.S n) with (Datatypes.S i + n) by lia.
    destruct (cond s) eqn:Hc.
    + apply IH.
      * apply Hstep; [lia|done..].
      * intros j t Hj. apply Hstep. lia.
      * intros j t Hj. apply Hstop. lia.
    + rewrite <- (for_from_stuck cond body (Datatypes.S i) n s Hc).
      apply IH.
      * apply Hstop; [lia|done..].
      * intros j t Hj. apply Hstep. lia.
      * intros j t Hj. apply Hstop. lia.
Qed.

Lemma for_while_ind (P : nat → S → Prop) cond body n s :
  P 0 s →
  (∀ j t, j < n → P j t → cond t = true → P (Datatypes.S j) (body j t)) →
  (∀ j t, j < n → P j t → cond t = false → P (Datatypes.S j) t) →
  P n (for_while cond body n s).
Proof.
  intros H0 Hstep Hstop. apply (for_from_ind P cond body 0 n s H0).
  - intros j t Hj. apply Hstep. lia.
  - intros j t Hj. apply Hstop. lia.
Qed.

(** One row of a nested loop is a stretch of the flat loop. *)
Lemma for_row_flat cond (g : nat → nat → S → S) w y x n s :
  x + n ≤ w →
  for_from cond (g y) x n s
  = for_from cond (λ i, g (i / w) (i `mod` w)) (y * w + x) n s.
Proof.
  revert x s. induction n as [|n IH]; intros x s Hx; simpl; [done|].
  destruct (cond s); [|done].
  replace ((y * w + x) / w) with y by (apply Nat.div_unique with x; lia).
  replace ((y * w + x) `mod` w) with x by (apply Nat.mod_unique with y; lia).
  rewrite IH by lia. f_equal. lia.
Qed.

(** Two nested loops with one exit condition, [y] outer and [x] inner,
    visit the indices [y*w+x] in increasing order. *)
Lemma for_nested_flat cond (g : nat → nat → S → S) w h s :
  for_while cond (λ y, for_while cond (g y) w) h s
  = for_while cond (λ i, g (i / w) (i `mod` w)) (h * w) s.
Proof.
  unfold for_while.
  enough (∀ y0, for_from cond (λ y, for_from cond (g y) 0 w) y0 h s
    = for_from cond (λ i, g (i / w) (i `mod` w)) (y0 * w) (h * w) s) as H
    by apply (H 0).
  revert s. induction h as [|h IH]; intros s y0; simpl; [done|].
  rewrite for_from_app.
  destruct (cond s) eqn:Hc.
  - rewrite IH. rewrite (for_row_flat cond g w y0 0 w s) by lia.
    rewrite Nat.add_0_r. f_equal. lia.
  - rewrite (for_from_stuck cond _ (y0 * w) w s Hc). by rewrite for_from_stuck.
Qed.

End LoopFacts.

(** A loop that stores [f i] at every index [i] of a fresh slice. *)
Lemma for_range_fill {A} (f : nat → A) (n : nat) (d : A) :
  for_range (λ i l, <[i := f i]> l) n (replicate n d) = f <$> seq 0 n.
Proof.
  unfold for_range.
  pose (P := λ (k : nat) (l : list A), k ≤ n → l = (f <$> seq 0 k) ++ replicate (n - k) d).
  enough (P n (for_while (λ _, true) (λ i l, <[i := f i]> l) n (replicate n d))) as H.
  { rewrite H by lia. by rewrite Nat.sub_diag, app_nil_r. }
  apply for_while_ind; unfold P.
  - intros _. by rewrite Nat.sub_0_r.
  - intros j t Hj Ht _ _. rewrite Ht by lia.
    replace (n - j) with (Datatypes.S (n - Datatypes.S j)) by lia.
    rewrite seq_S, fmap_app. simpl.
    rewrite <- (Nat.add_0_r j) at 1.
    replace j with (length (f <$> seq 0 j)) at 1 by (by rewrite length_fmap, length_seq).
    rewrite insert_app_r. simpl. by rewrite <- app_assoc.
  - intros j t _ _ Hf. discriminate Hf.
Qed.

(** ** Bytes and their bits *)

Module uint8_facts.

Lemma to_N_lt (a : byte) : (Byte.to_N a < 256)%N.
Proof. pose proof (Byte.to_N_bounded a). lia. Qed.

Lemma to_N_of_N (n : N) : Byte.to_N (uint8.of_N n) = (n mod 256)%N.
Proof.
  unfold uint8.of_N. destruct (Byte.of_N (n mod 256)) as [b|] eqn:Hb.
  - by apply Byte.to_of_N.
  - apply Byte.of_N_None_iff in Hb.
    pose proof (N.mod_upper_bound n 256%N). lia.
Qed.

Lemma to_N_inj (a b : byte) : Byte.to_N a = Byte.to_N b → a = b.
Proof.
  intros H. pose proof (Byte.of_to_N a) as Ha. rewrite H, Byte.of_to_N in Ha.
  congruence.
Qed.

Lemma testbit_high (a : byte) (j : nat) : 8 ≤ j → uint8.testbit a j = false.
Proof.
  intros Hj. unfold uint8.testbit.
  destruct (N.eq_dec (Byte.to_N a) 0%N) as [->|Hne]; [apply N.bits_0|].
  apply N.bits_above_log2. apply N.log2_lt_pow2; [lia|].
  pose proof (to_N_lt a).
  apply N.lt_le_trans with (2 ^ 8)%N; [done|].
  apply N.pow_le_mono_r; lia.
Qed.

Lemma testbit_of_N (n : N) (j : nat) :
  uint8.testbit (uint8.of_N n) j = (j <? 8) && N.testbit n (N.of_nat j).
Proof.
  unfold uint8.testbit. rewrite to_N_of_N. change 256%N with (2 ^ 8)%N.
  destruct (j <? 8) eqn:Hj; simpl.
  - apply Nat.ltb_lt in Hj. apply N.mod_pow2_bits_low. lia.
  - apply Nat.ltb_ge in Hj. apply N.mod_pow2_bits_high. lia.
Qed.

Lemma byte_ext (a b : byte) :
  (∀ j, j < 8 → uint8.testbit a j = uint8.testbit b j) → a = b.
Proof.
  intros H. apply to_N_inj, N.bits_inj. intros k.
  destruct (decide (N.to_nat k < 8)) as [Hk|Hk].
  - specialize (H (N.to_nat k) Hk). unfold uint8.testbit in H.
    by rewrite N2Nat.id in H.
  - pose proof (testbit_high a (N.to_nat k)) as Ha.
    pose proof (testbit_high b (N.to_nat k)) as Hb.
    unfold uint8.testbit in Ha, Hb. rewrite N2Nat.id in Ha, Hb.
    rewrite Ha, Hb by lia. done.
Qed.

Lemma testbit_and (a b : byte) (j : nat) :
  uint8.testbit (uint8.and a b) j = uint8.testbit a j && uint8.testbit b j.
Proof.
  unfold uint8.and. rewrite testbit_of_N, N.land_spec.
  destruct (j <? 8) eqn:Hj; simpl; [done|].
  apply Nat.ltb_ge in Hj. by rewrite (testbit_high a j Hj).
Qed.

Lemma testbit_or (a b : byte) (j : nat) :
  uint8.testbit (uint8.or a b) j = uint8.testbit a j || uint8.testbit b j.
Proof.
  unfold uint8.or. rewrite testbit_of_N, N.lor_spec.
  destruct (j <? 8) eqn:Hj; simpl; [done|].
  apply Nat.ltb_ge in Hj.
  by rewrite (testbit_high a j Hj), (testbit_high b j Hj).
Qed.

Lemma testbit_shr (a : byte) (k j : nat) :
  uint8.testbit (uint8.shr a k) j = uint8.testbit a (j + k).
Proof.
  unfold uint8.shr. rewrite testbit_of_N, N.shiftr_spec by lia.
  unfold uint8.testbit. rewrite Nat2N.inj_add.
  destruct (j <? 8) eqn:Hj; simpl; [done|].
  apply Nat.ltb_ge in Hj.
  pose proof (testbit_high a (j + k)) as H. unfold uint8.testbit in H.
  rewrite Nat2N.inj_add in H. rewrite H by lia. done.
Qed.

Lemma testbit_shl (a : byte) (k j : nat) :
  uint8.testbit (uint8.shl a k) j
  = (j <? 8) && (k <=? j) && uint8.testbit a (j - k).
Proof.
  unfold uint8.shl. rewrite testbit_of_N.
  destruct (j <? 8); simpl; [|done].
  destruct (k <=? j) eqn:Hk; simpl.
  - apply Nat.leb_le in Hk. rewrite N.shiftl_spec_high by lia.
    unfold uint8.testbit. f_equal. lia.
  - apply Nat.leb_gt in Hk. apply N.shiftl_spec_low. lia.
Qed.

Lemma testbit_x00 (j : nat) : uint8.testbit x00 j = false.
Proof. apply N.bits_0. Qed.

Lemma testbit_x01 (j : nat) : uint8.testbit x01 j = (j =? 0).
Proof.
  destruct j as [|j]; [done|]. unfold uint8.testbit. simpl Byte.to_N.
  change 1%N with (2 ^ 0)%N. rewrite N.pow2_bits_false by lia. done.
Qed.

Lemma testbit_xfe (j : nat) : uint8.testbit xfe j = (0 <? j) && (j <? 8).
Proof.
  destruct (j <? 8) eqn:Hj.
  - apply Nat.ltb_lt in Hj.
    do 8 (destruct j as [|j]; [done|]). lia.
  - apply Nat.ltb_ge in Hj. rewrite testbit_high by done.
    by rewrite andb_false_r.
Qed.

(** [c & 1] is the byte 0 or 1 holding bit 0 of [c]. *)
Lemma and_x01 (c : byte) :
  uint8.and c x01 = if uint8.testbit c 0 then x01 else x00.
Proof.
  apply byte_ext. intros j Hj. rewrite testbit_and, testbit_x01.
  destruct j as [|j]; simpl.
  - rewrite andb_true_r. by destruct (uint8.testbit c 0).
  - rewrite andb_false_r. destruct (uint8.testbit c 0).
    + by rewrite testbit_x01.
    + by rewrite testbit_x00.
Qed.

Lemma eqb_and_x01 (c : byte) : Byte.eqb (uint8.and c x01) x01 = uint8.testbit c 0.
Proof. rewrite and_x01. by destruct (uint8.testbit c 0). Qed.

End uint8_facts.

(** ** Bit codec *)

Lemma bitAt_byte (bs : list byte) (i j : nat) :
  j < 8 → bitAt bs (i * 8 + j) = uint8.testbit (bs !!! i) (7 - j).
Proof.
  intros Hj. unfold bitAt.
  replace ((i * 8 + j) / 8) with i by (apply Nat.div_unique with j; lia).
  replace ((i * 8 + j) `mod` 8) with j by (apply Nat.mod_unique with i; lia).
  done.
Qed.

(** Byte sequences of one length with the same bits are equal. *)
Lemma bytes_ext (a b : list byte) :
  length a = length b →
  (∀ i, i < length a * 8 → bitAt a i = bitAt b i) →
  a = b.
Proof.
  intros Hlen H. apply (list_eq_same_length a b (length a)); [done..|].
  intros i x y Hi Hx Hy. apply uint8_facts.byte_ext. intros j Hj.
  specialize (H (i * 8 + (7 - j))). rewrite !bitAt_byte in H by lia.
  rewrite (list_lookup_total_correct a i x Hx) in H.
  rewrite (list_lookup_total_correct b i y Hy) in H.
  replace (7 - (7 - j)) with j in H by lia. apply H. lia.
Qed.

Lemma bitOf_spec (data : list byte) (k : nat) :
  bitOf data k = if bitAt data k then x01 else x00.
Proof.
  unfold bitOf, bitAt.
  by rewrite uint8_facts.and_x01, uint8_facts.testbit_shr.
Qed.

Lemma bitOf_bit (data : list byte) (k : nat) : bitOf data k = x00 ∨ bitOf data k = x01.
Proof. rewrite bitOf_spec. destruct (bitAt data k); auto. Qed.

(** [bytesToBits] without its loops: entry [k] holds bit [7 - k%8] of byte
    [k/8]. *)
Lemma bytesToBits_flat (data : list byte) :
  bytesToBits data = bitOf data <$> seq 0 (length data * 8).
Proof.
  unfold bytesToBits, for_range.
  rewrite (for_nested_flat (λ _, true)
    (λ i j bits, <[i * 8 + j := uint8.and (uint8.shr (data !!! i) (7 - j)) x01]> bits)
    8 (length data)).
  unfold for_while.
  rewrite (for_from_ext _ _ (λ k l, <[k := bitOf data k]> l)).
  - apply for_range_fill.
  - intros k t _. unfold bitOf. f_equal.
    pose proof (Nat.div_mod k 8). lia.
Qed.

Lemma length_bytesToBits (data : list byte) :
  length (bytesToBits data) = 8 * length data.
Proof. rewrite bytesToBits_flat, length_fmap, length_seq. lia. Qed.

Lemma lookup_bytesToBits (data : list byte) (k : nat) :
  k < 8 * length data → bytesToBits data !! k = Some (bitOf data k).
Proof.
  intros Hk. rewrite bytesToBits_flat, list_lookup_fmap.
  rewrite lookup_seq_lt by lia. done.
Qed.

Lemma bytesToBits_app (a b : list byte) :
  bytesToBits (a ++ b) = bytesToBits a ++ bytesToBits b.
Proof.
  apply list_eq. intros k.
  destruct (decide (k < 8 * length (a ++ b))) as [Hk|Hk].
  - rewrite lookup_bytesToBits by done. rewrite length_app in Hk.
    destruct (decide (k < 8 * length a)) as [Ha|Ha].
    + rewrite lookup_app_l by (rewrite length_bytesToBits; lia).
      rewrite lookup_bytesToBits by done. f_equal. unfold bitOf.
      rewrite lookup_total_app_l; [done|].
      apply Nat.Div0.div_lt_upper_bound; lia.
    + rewrite lookup_app_r by (rewrite length_bytesToBits; lia).
      rewrite length_bytesToBits, lookup_bytesToBits by lia.
      f_equal. unfold bitOf.
      rewrite lookup_total_app_r by (apply Nat.div_le_lower_bound; lia).
      replace ((k - 8 * length a) / 8) with (k / 8 - length a).
      2:{ replace k with ((k - 8 * length a) + length a * 8) at 1 by lia.
          rewrite Nat.div_add by lia. lia. }
      replace ((k - 8 * length a) `mod` 8) with (k `mod` 8).
      2:{ replace k with ((k - 8 * length a) + length a * 8) at 1 by lia.
          by rewrite Nat.Div0.mod_add. }
      done.
  - rewrite !lookup_ge_None_2; [done| |].
    + rewrite length_app, !length_bytesToBits. rewrite length_app in Hk. lia.
    + rewrite length_bytesToBits. lia.
Qed.

(** [bitsToBytes] without its loop: the length, and every bit of the
    result. *)
Lemma bitsToBytes_spec (bits : list byte) :
  length (bitsToBytes bits) = (length bits + 7) / 8
  ∧ ∀ i, bitAt (bitsToBytes bits) i = bool_decide (bits !! i = Some x01).
Proof.
  unfold bitsToBytes, for_range.
  set (n := (length bits + 7) / 8).
  pose (P := λ (k : nat) (bytes : list byte),
    length bytes = n
    ∧ ∀ i, bitAt bytes i = (i <? k) && bool_decide (bits !! i = Some x01)).
  match goal with |- length ?r = _ ∧ _ => enough (P (length bits) r) as [Hl Hb] end.
  { split; [done|]. intros i. rewrite Hb.
    destruct (i <? length bits) eqn:Hi; simpl; [done|].
    apply Nat.ltb_ge in Hi. rewrite lookup_ge_None_2 by done.
    by rewrite bool_decide_eq_false_2. }
  apply for_while_ind; unfold P.
  - split; [apply length_replicate|]. intros i. unfold bitAt.
    destruct (decide (i / 8 < n)) as [Hi|Hi].
    + rewrite lookup_total_replicate_2 by done. apply uint8_facts.testbit_x00.
    + rewrite list_lookup_total_alt.
      rewrite (proj1 (lookup_replicate_None n x00 (i / 8))) by lia.
      apply uint8_facts.testbit_x00.
  - intros k bytes Hk [Hl Hb] _.
    assert (k / 8 < n) as Hkn.
    { unfold n. apply Nat.Div0.div_lt_upper_bound.
      pose proof (Nat.div_mod (length bits + 7) 8). pose proof (Nat.mod_upper_bound (length bits + 7) 8). lia. }
    destruct (lookup_lt_is_Some_2 bits k Hk) as [bit Hbit].
    rewrite (list_lookup_total_correct bits k bit Hbit).
    destruct (Byte.eqb bit x01) eqn:Hone.
    + apply Byte.byte_dec_bl in Hone. subst bit.
      split; [by rewrite length_insert|]. intros i. unfold bitAt.
      destruct (decide (i / 8 = k / 8)) as [Heq|Hne].
      * rewrite Heq, list_lookup_total_insert_eq by lia.
        rewrite uint8_facts.testbit_or, uint8_facts.testbit_shl, uint8_facts.testbit_x01.
        specialize (Hb i). unfold bitAt in Hb. rewrite Heq in Hb. rewrite Hb.
        pose proof (Nat.div_mod i 8). pose proof (Nat.div_mod k 8).
        pose proof (Nat.mod_upper_bound i 8). pose proof (Nat.mod_upper_bound k 8).
        destruct (decide (i = k)) as [->|Hik].
        -- rewrite Hbit, bool_decide_eq_true_2 by done.
           rewrite Nat.sub_diag. rewrite orb_comm.
           know (7 - k `mod` 8 <? 8).
           rewrite Nat.leb_refl. simpl.
           know (k <? Datatypes.S k).
           done.
        -- replace (i <? Datatypes.S k) with (i <? k)
             by (destruct (Nat.ltb_spec i k), (Nat.ltb_spec i (Datatypes.S k)); lia || done).
           destruct (7 - k `mod` 8 <=? 7 - i `mod` 8) eqn:Hle.
           ++ apply Nat.leb_le in Hle.
              know (7 - i `mod` 8 - (7 - k `mod` 8) =? 0).
              by rewrite !andb_false_r, orb_false_r.
           ++ by rewrite andb_false_r, orb_false_r.
      * rewrite list_lookup_total_insert_ne by done.
        specialize (Hb i). unfold bitAt in Hb. rewrite Hb.
        replace (i <? Datatypes.S k) with (i <? k); [done|].
        assert (i ≠ k) by congruence.
        destruct (Nat.ltb_spec i k), (Nat.ltb_spec i (Datatypes.S k)); lia || done.
    + split; [done|]. intros i. rewrite Hb.
      destruct (decide (i = k)) as [->|Hik].
      * rewrite Hbit. rewrite bool_decide_eq_false_2.
        2:{ intros [= ->]. by rewrite Byte.byte_dec_lb in Hone. }
        by rewrite !andb_false_r.
      * replace (i <? Datatypes.S k) with (i <? k); [done|].
        destruct (Nat.ltb_spec i k), (Nat.ltb_spec i (Datatypes.S k)); lia || done.
  - intros j t _ _ Hf. discriminate Hf.
Qed.

Lemma length_bitsToBytes (bits : list byte) :
  length (bitsToBytes bits) = (length bits + 7) / 8.
Proof. apply bitsToBytes_spec. Qed.

Lemma bitAt_bitsToBytes (bits : list byte) (i : nat) :
  bitAt (bitsToBytes bits) i = bool_decide (bits !! i = Some x01).
Proof. apply bitsToBytes_spec. Qed.

Lemma bitsToBytes_bytesToBits (d : list byte) : bitsToBytes (bytesToBits d) = d.
Proof.
  assert (length (bitsToBytes (bytesToBits d)) = length d) as Hlen.
  { rewrite length_bitsToBytes, length_bytesToBits.
    symmetry. apply Nat.div_unique with 7; lia. }
  apply bytes_ext; [done|]. intros i Hi. rewrite Hlen in Hi.
  rewrite bitAt_bitsToBytes, lookup_bytesToBits by lia.
  rewrite bitOf_spec. destruct (bitAt d i).
  - by rewrite bool_decide_eq_true_2.
  - by rewrite bool_decide_eq_false_2.
Qed.

(** ** Pattern generator *)

(** The fuel [Iterations] given to the escape loop is enough: more fuel
    changes nothing, so the loop always ends by its own condition or
    [break]. *)
Lemma escape_fuel (params : FractalParams) (c : complex128.t)
    (fuel1 fuel2 : nat) (iter : Z) (z : complex128.t) :
  Z.to_nat (Iterations params - iter) ≤ fuel1 →
  Z.to_nat (Iterations params - iter) ≤ fuel2 →
  escape params c fuel1 iter z = escape params c fuel2 iter z.
Proof.
  revert fuel2 iter z.
  induction fuel1 as [|fuel1 IH]; intros fuel2 iter z H1 H2.
  - destruct fuel2 as [|fuel2]; simpl; [done|].
    destruct (Z.ltb_spec iter (Iterations params)); [lia|done].
  - destruct fuel2 as [|fuel2]; simpl.
    + destruct (Z.ltb_spec iter (Iterations params)); [lia|done].
    + destruct (Z.ltb_spec iter (Iterations params)); [|done].
      destruct (PrimFloat.ltb _ _); [done|].
      apply IH; lia.
Qed.

(** The escape loop reads [params.Type] only through the test
    [params.Type == "Julia"]. *)
Lemma escape_variant (p p' : FractalParams) (c : complex128.t)
    (fuel : nat) (iter : Z) (z : complex128.t) :
  String.eqb (Type_ p) "Julia" = String.eqb (Type_ p') "Julia" →
  Iterations p = Iterations p' →
  Threshold p = Threshold p' →
  escape p c fuel iter z = escape p' c fuel iter z.
Proof.
  intros Ht Hi Hth. revert iter z.
  induction fuel as [|fuel IH]; intros iter z; simpl; [done|].
  rewrite Ht, Hi, Hth.
  destruct (iter <? Iterations p')%Z; [|done].
  destruct (PrimFloat.ltb _ _); [done|]. apply IH.
Qed.

(** For the Julia variant the escape loop never reads [c]. *)
Lemma escape_julia (p : FractalParams) (c c' : complex128.t)
    (fuel : nat) (iter : Z) (z : complex128.t) :
  String.eqb (Type_ p) "Julia" = true →
  escape p c fuel iter z = escape p c' fuel iter z.
Proof.
  intros Ht. revert iter z.
  induction fuel as [|fuel IH]; intros iter z; simpl; [done|].
  rewrite Ht.
  destruct (iter <? Iterations p)%Z; [|done].
  destruct (PrimFloat.ltb _ _); [done|]. apply IH.
Qed.

(** [generateFractalPattern] without its loops: entry [i] is the pixel
    test at column [i % width], row [i / width]. *)
Lemma generateFractalPattern_flat (width height : nat) (params : FractalParams) :
  generateFractalPattern width height params
  = (λ i, fractalPixel width height params (i `mod` width) (i / width))
      <$> seq 0 (width * height).
Proof.
  unfold generateFractalPattern, for_range.
  rewrite (for_nested_flat (λ _, true)
    (λ y x pattern, <[y * width + x := fractalPixel width height params x y]> pattern)
    width height).
  unfold for_while. rewrite (Nat.mul_comm height width).
  rewrite (for_from_ext _ _
    (λ i l, <[i := fractalPixel width height params (i `mod` width) (i / width)]> l)).
  - apply for_range_fill.
  - intros i t _. f_equal.
    pose proof (Nat.Div0.div_mod i width). lia.
Qed.

Lemma length_generateFractalPattern (width height : nat) (params : FractalParams) :
  length (generateFractalPattern width height params) = width * height.
Proof. by rewrite generateFractalPattern_flat, length_fmap, length_seq. Qed.

Lemma generateFractalPattern_const (width height : nat) (params : FractalParams) (b : bool) :
  (∀ x y, fractalPixel width height params x y = b) →
  generateFractalPattern width height params = replicate (width * height) b.
Proof.
  intros H. rewrite generateFractalPattern_flat.
  rewrite (const_fmap _ (seq 0 (width * height)) b) by (intros; apply H).
  by rewrite length_seq.
Qed.

(** ** Carrier positions *)

Lemma lookup_total_mask (mask : list bool) (i : nat) :
  i < length mask →
  (mask !!! i : bool) = bool_decide (mask !! i = Some true).
Proof.
  intros Hi. destruct (lookup_lt_is_Some_2 mask i Hi) as [b Hb].
  rewrite (list_lookup_total_correct mask i b Hb), Hb.
  by destruct b.
Qed.

Lemma carrierPositions_S (mask : list bool) (k : nat) :
  carrierPositions mask (S k)
  = carrierPositions mask k ++ (if bool_decide (mask !! k = Some true) then [k] else []).
Proof.
  unfold carrierPositions. rewrite seq_S, filter_app. simpl. f_equal.
  case_bool_decide.
  - by rewrite filter_cons_True.
  - by rewrite filter_cons_False.
Qed.

Lemma rank_S (mask : list bool) (k : nat) :
  rank mask (S k) = rank mask k + (if bool_decide (mask !! k = Some true) then 1 else 0).
Proof.
  unfold rank. rewrite carrierPositions_S, length_app.
  by case_bool_decide.
Qed.

Lemma rank_le (mask : list bool) (k : nat) : rank mask k ≤ k.
Proof.
  unfold rank, carrierPositions.
  etrans; [apply length_filter|]. by rewrite length_seq.
Qed.

(** The carrier count of a mask is its number of carrier positions. *)
Lemma rank_take (mask : list bool) (k : nat) :
  rank mask k = carrierCount (take k mask).
Proof.
  induction k as [|k IH]; [done|].
  rewrite rank_S, IH. unfold carrierCount.
  destruct (mask !! k) as [b|] eqn:Hk.
  - rewrite (take_S_r _ _ _ Hk), filter_app, length_app.
    destruct b.
    + by rewrite bool_decide_eq_true_2.
    + rewrite bool_decide_eq_false_2 by congruence. done.
  - rewrite bool_decide_eq_false_2 by congruence.
    apply lookup_ge_None in Hk. rewrite !take_ge by lia. lia.
Qed.

Lemma rank_carrierCount (mask : list bool) :
  rank mask (length mask) = carrierCount mask.
Proof. by rewrite rank_take, take_ge. Qed.

Lemma carrierCount_le (mask : list bool) : carrierCount mask ≤ length mask.
Proof. apply length_filter. Qed.

Lemma carrierCount_replicate_true (n : nat) : carrierCount (replicate n true) = n.
Proof.
  unfold carrierCount. induction n as [|n IH]; [done|].
  rewrite replicate_S, filter_cons_True by done. simpl. by rewrite IH.
Qed.

Lemma carrierCount_replicate_false (n : nat) : carrierCount (replicate n false) = 0.
Proof.
  unfold carrierCount. induction n as [|n IH]; [done|].
  by rewrite replicate_S, filter_cons_False.
Qed.

(** Row-major coordinates of an index. *)
Lemma index_coords (w h k : nat) :
  k < h * w →
  k `mod` w < w ∧ k / w < h ∧ k / w * w + k `mod` w = k.
Proof.
  intros Hk. assert (w ≠ 0) as Hw by (intros ->; lia).
  pose proof (Nat.mod_upper_bound k w Hw).
  pose proof (Nat.Div0.div_mod k w).
  split; [done|]. split; [|lia].
  apply Nat.Div0.div_lt_upper_bound. lia.
Qed.

Lemma coords_index (w x y : nat) :
  x < w → (y * w + x) `mod` w = x ∧ (y * w + x) / w = y.
Proof.
  intros Hx. split.
  - symmetry. apply Nat.mod_unique with y; lia.
  - symmetry. apply Nat.div_unique with x; lia.
Qed.

(** ** Embedder *)

Lemma indexOf_of_nat (img : image.Image) (x y : nat) :
  indexOf img (Z.of_nat x) (Z.of_nat y) = y * image.Dx img + x.
Proof. unfold indexOf. by rewrite !Nat2Z.id. Qed.

Lemma scanned_of_nat (img : image.Image) (x y : nat) :
  x < image.Dx img → y < image.Dy img →
  scanned img (Z.of_nat x) (Z.of_nat y) = true.
Proof.
  intros Hx Hy. unfold scanned.
  repeat (apply andb_true_intro; split);
    first [apply Z.leb_le | apply Z.ltb_lt]; lia.
Qed.

Lemma scanned_coords (img : image.Image) (x y : Z) :
  scanned img x y = true →
  ∃ x' y', x = Z.of_nat x' ∧ y = Z.of_nat y'
           ∧ x' < image.Dx img ∧ y' < image.Dy img.
Proof.
  unfold scanned. intros H.
  apply andb_prop in H as [H Hy2]. apply andb_prop in H as [H Hy1].
  apply andb_prop in H as [Hx1 Hx2].
  apply Z.leb_le in Hx1, Hy1. apply Z.ltb_lt in Hx2, Hy2.
  exists (Z.to_nat x), (Z.to_nat y). lia.
Qed.

(** On an image whose bounds start at the origin, the scan visits exactly
    the points of the bounds. *)
Lemma In_zero_origin (img : image.Image) (x y : Z) :
  image.MinX img = 0%Z → image.MinY img = 0%Z →
  image.In x y img = scanned img x y.
Proof. intros Hx Hy. unfold image.In, scanned. by rewrite Hx, Hy, !Z.add_0_l. Qed.

(** What it takes for the point of index [j] to be consumed. *)
Lemma consumed_inv (cover : image.Image) (mask : list bool) (n j : nat) (x y : Z) :
  indexOf cover x y = j →
  consumed cover mask n x y = true →
  x = Z.of_nat (j `mod` image.Dx cover) ∧ y = Z.of_nat (j / image.Dx cover)
  ∧ image.In x y cover = true ∧ mask !! j = Some true ∧ rank mask j < n.
Proof.
  intros Hi Hc. unfold consumed in Hc. rewrite Hi in Hc.
  apply andb_prop in Hc as [Hc Hr]. apply andb_prop in Hc as [Hc Hm].
  apply andb_prop in Hc as [Hin Hsc].
  apply Nat.ltb_lt in Hr. apply bool_decide_eq_true_1 in Hm.
  destruct (scanned_coords _ _ _ Hsc) as (x' & y' & -> & -> & Hx & Hy).
  rewrite indexOf_of_nat in Hi.
  destruct (coords_index (image.Dx cover) x' y' Hx) as [Hm1 Hm2].
  rewrite Hi in Hm1, Hm2. by rewrite Hm1, Hm2.
Qed.

Lemma embedPixel_S (cover : image.Image) (mask : list bool) (bits : list byte)
    (k : nat) (x y : Z) :
  ¬ (indexOf cover x y = k ∧ consumed cover mask (length bits) x y = true) →
  embedPixel cover mask bits (S k) x y = embedPixel cover mask bits k x y.
Proof.
  intros H. unfold embedPixel.
  destruct (consumed cover mask (length bits) x y) eqn:Hc; simpl; [|done].
  assert (indexOf cover x y ≠ k) as Hne by tauto.
  replace (indexOf cover x y <? S k) with (indexOf cover x y <? k); [done|].
  destruct (Nat.ltb_spec (indexOf cover x y) k),
    (Nat.ltb_spec (indexOf cover x y) (S k)); lia || done.
Qed.

Lemma At_NewRGBA_Draw (cover : image.Image) (x y : Z) :
  image.In x y cover = true →
  image.At (image.NewRGBA_Draw cover) x y = image.At cover x y.
Proof. intros Hin. unfold image.NewRGBA_Draw. simpl. by rewrite Hin. Qed.

(** The state of the scan of [Embed] before index [k]. *)
Lemma embed_loop_spec (cover : image.Image) (mask : list bool) (bits : list byte) :
  length mask = image.Dx cover * image.Dy cover →
  ∀ stego bitPos,
    for_while (embed_cond bits)
      (λ y, for_while (embed_cond bits) (embed_body mask bits (image.Dx cover) y)
              (image.Dx cover))
      (image.Dy cover) (image.NewRGBA_Draw cover, 0) = (stego, bitPos) →
    image.MinX stego = image.MinX cover ∧ image.MinY stego = image.MinY cover
    ∧ image.Dx stego = image.Dx cover ∧ image.Dy stego = image.Dy cover
    ∧ bitPos = rank mask (length mask) `min` length bits
    ∧ ∀ x y, image.At stego x y = embedPixel cover mask bits (length mask) x y.
Proof.
  intros Hmask stego bitPos.
  set (w := image.Dx cover) in *. set (h := image.Dy cover) in *.
  rewrite for_nested_flat.
  pose (P := λ (k : nat) (st : image.Image * nat),
    image.MinX st.1 = image.MinX cover ∧ image.MinY st.1 = image.MinY cover
    ∧ image.Dx st.1 = w ∧ image.Dy st.1 = h
    ∧ st.2 = rank mask k `min` length bits
    ∧ ∀ x y, image.At st.1 x y = embedPixel cover mask bits k x y).
  intros Hrun.
  enough (P (h * w) (stego, bitPos)) as HP.
  { rewrite Hmask, (Nat.mul_comm w h). exact HP. }
  rewrite <- Hrun. clear Hrun stego bitPos.
  apply for_while_ind; unfold P; clear P.
  - simpl. repeat split. intros x y. unfold embedPixel.
    replace (indexOf cover x y <? 0) with false by done.
    by rewrite andb_false_r.
  - intros j [stego bitPos] Hj (Hmx & Hmy & Hw & Hh & Hbp & Hat) Hc. simpl in *.
    unfold embed_cond in Hc. simpl in Hc. apply Nat.ltb_lt in Hc.
    destruct (index_coords w h j Hj) as (Hx & Hy & Hidx).
    unfold embed_body. rewrite Hidx, lookup_total_mask by lia.
    assert (image.In (Z.of_nat (j `mod` w)) (Z.of_nat (j / w)) stego
            = image.In (Z.of_nat (j `mod` w)) (Z.of_nat (j / w)) cover) as Hin.
    { unfold image.In. by rewrite Hmx, Hmy, Hw, Hh. }
    assert (indexOf cover (Z.of_nat (j `mod` w)) (Z.of_nat (j / w)) = j) as Hidx'.
    { rewrite indexOf_of_nat. exact Hidx. }
    assert (scanned cover (Z.of_nat (j `mod` w)) (Z.of_nat (j / w)) = true) as Hsc
      by (by apply scanned_of_nat).
    rewrite rank_S. case_bool_decide as Hm; simpl.
    + unfold image.SetRGBA, image.RGBAAt. rewrite Hin.
      destruct (image.In (Z.of_nat (j `mod` w)) (Z.of_nat (j / w)) cover) eqn:Hin'; simpl.
      * do 4 (split; [done|]). split; [clear -Hbp Hc; lia|].
        intros x y.
        destruct ((x =? Z.of_nat (j `mod` w)) && (y =? Z.of_nat (j / w)))%Z eqn:Exy.
        -- apply andb_prop in Exy as [Ex Ey].
           apply Z.eqb_eq in Ex, Ey. subst x y.
           rewrite Hat. unfold embedPixel, consumed. rewrite Hidx'.
           rewrite Hin', Hsc, bool_decide_eq_true_2 by done.
           know (rank mask j <? length bits).
           know (j <? j).
           know (j <? S j).
           replace bitPos with (rank mask j) by lia. done.
        -- rewrite Hat. symmetry. apply embedPixel_S. intros [Hi Hcons].
           apply andb_false_iff in Exy.
           destruct (consumed_inv _ _ _ _ _ _ Hi Hcons) as (Ex & Ey & _).
           fold w in Ex, Ey.
           destruct Exy as [E|E]; apply Z.eqb_neq in E; lia.
      * do 4 (split; [done|]). split; [clear -Hbp Hc; lia|].
        intros x y. rewrite Hat. symmetry. apply embedPixel_S. intros [Hi Hcons].
        destruct (consumed_inv _ _ _ _ _ _ Hi Hcons) as (Ex & Ey & Hin'' & _).
        fold w in Ex, Ey. subst x y. congruence.
    + do 4 (split; [done|]). split; [lia|].
      intros x y. rewrite Hat. symmetry. apply embedPixel_S.
      intros [Hi Hcons].
      destruct (consumed_inv _ _ _ _ _ _ Hi Hcons) as (_ & _ & _ & Hm' & _).
      done.
  - intros j [stego bitPos] Hj (Hmx & Hmy & Hw & Hh & Hbp & Hat) Hc. simpl in *.
    unfold embed_cond in Hc. simpl in Hc. apply Nat.ltb_ge in Hc.
    do 4 (split; [done|]). split.
    + rewrite rank_S. case_bool_decide; lia.
    + intros x y. rewrite Hat. symmetry. apply embedPixel_S.
      intros [Hi Hcons].
      destruct (consumed_inv _ _ _ _ _ _ Hi Hcons) as (_ & _ & _ & _ & Hr).
      lia.
Qed.

Lemma envelope_bits (data : list byte) :
  Forall (λ b, b = x00 ∨ b = x01) (envelope data).
Proof.
  unfold envelope. apply Forall_app. split.
  - rewrite bytesToBits_flat. apply Forall_fmap, Forall_forall.
    intros k _. apply bitOf_bit.
  - rewrite bytesToBits_flat. apply Forall_fmap, Forall_forall.
    intros k _. apply bitOf_bit.
Qed.

Lemma length_envelope (data : list byte) : length (envelope data) = 32 + 8 * length data.
Proof. unfold envelope. rewrite length_app, !length_bytesToBits. simpl. lia. Qed.

(** [Embed] without its loops. *)
Lemma Embed_spec (cover : image.Image) (data : list byte)
    (rate : float) (params : FractalParams) :
  32 + length data * 8 ≤ image.Dx cover * image.Dy cover →
  ∃ stego,
    Embed cover data {| EmbeddingRate := rate; FractalParams_ := Some params |}
    = (Some stego, None)
    ∧ (image.MinX stego = image.MinX cover ∧ image.MinY stego = image.MinY cover)
    ∧ image.Dx stego = image.Dx cover ∧ image.Dy stego = image.Dy cover
    ∧ ∀ x y, image.At stego x y
        = embedPixel cover (maskOf cover params) (envelope data)
            (image.Dx cover * image.Dy cover) x y.
Proof.
  intros Hcap. unfold Embed. cbn [FractalParams_].
  destruct (Nat.ltb_spec (image.Dx cover * image.Dy cover) (32 + length data * 8)) as [?|_];
    [lia|].
  fold (envelope data). fold (maskOf cover params).
  destruct (for_while _ _ _ _) as [stego bitPos] eqn:Hrun.
  exists stego. split; [done|].
  assert (length (maskOf cover params) = image.Dx cover * image.Dy cover) as Hlen
    by apply length_generateFractalPattern.
  destruct (embed_loop_spec cover (maskOf cover params) (envelope data) Hlen
              stego bitPos Hrun) as (Hmx & Hmy & Hw & Hh & _ & Hat).
  rewrite Hlen in Hat. done.
Qed.

(** [(c.B & 0xFE) | bit] has [bit] as its least-significant bit. *)
Lemma lsb_withBlueLSB (c : color.RGBA) (bit : byte) :
  bit = x00 ∨ bit = x01 →
  uint8.and (color.B (withBlueLSB c bit)) x01 = bit.
Proof.
  intros Hbit. simpl. apply uint8_facts.byte_ext. intros j Hj.
  rewrite uint8_facts.testbit_and, uint8_facts.testbit_or, uint8_facts.testbit_and,
    uint8_facts.testbit_xfe, uint8_facts.testbit_x01.
  destruct j as [|j]; simpl.
  - by rewrite andb_false_r, andb_true_r.
  - rewrite andb_false_r. destruct Hbit as [-> | ->].
    + by rewrite uint8_facts.testbit_x00.
    + by rewrite uint8_facts.testbit_x01.
Qed.

(** [(c.B & 0xFE) | bit] keeps the upper seven bits of [c.B]. *)
Lemma upper_withBlueLSB (c : color.RGBA) (bit : byte) :
  bit = x00 ∨ bit = x01 →
  uint8.shr (color.B (withBlueLSB c bit)) 1 = uint8.shr (color.B c) 1.
Proof.
  intros Hbit. simpl. apply uint8_facts.byte_ext. intros j Hj.
  rewrite !uint8_facts.testbit_shr, uint8_facts.testbit_or, uint8_facts.testbit_and,
    uint8_facts.testbit_xfe.
  know (0 <? j + 1).
  assert (uint8.testbit bit (j + 1) = false) as ->.
  { destruct Hbit as [-> | ->].
    - apply uint8_facts.testbit_x00.
    - rewrite uint8_facts.testbit_x01. apply Nat.eqb_neq. lia. }
  rewrite orb_false_r. simpl.
  destruct (j + 1 <? 8) eqn:Hlt.
  - by rewrite andb_true_r.
  - apply Nat.ltb_ge in Hlt. rewrite uint8_facts.testbit_high by done. done.
Qed.

(** The carrier bits of an image embedded into a cover whose bounds start
    at the origin: the bit stream as far as the carriers reach, then the
    cover's own bits. *)
Lemma carrierBits_embedded (cover stego : image.Image) (mask : list bool) (bits : list byte) :
  image.MinX cover = 0%Z → image.MinY cover = 0%Z →
  length mask = image.Dx cover * image.Dy cover →
  image.Dx stego = image.Dx cover →
  image.Dy stego = image.Dy cover →
  (∀ x y, image.At stego x y
     = embedPixel cover mask bits (image.Dx cover * image.Dy cover) x y) →
  Forall (λ b, b = x00 ∨ b = x01) bits →
  carrierBits stego mask
  = take (carrierCount mask) bits ++ drop (length bits) (carrierBits cover mask).
Proof.
  intros Hmx Hmy Hmask Hw Hh Hat Hbits.
  rewrite <- rank_carrierCount, Hmask.
  unfold carrierBits. rewrite Hw, Hh.
  set (w := image.Dx cover) in *. set (h := image.Dy cover) in *.
  enough (∀ k, k ≤ w * h →
    pixelLSB stego <$> carrierPositions mask k
    = take (rank mask k) bits
      ++ drop (length bits) (pixelLSB cover <$> carrierPositions mask k)) as H
    by (apply H; lia).
  induction k as [|k IH]; intros Hk.
  - change (carrierPositions mask 0) with (@nil nat).
    change (rank mask 0) with 0. rewrite take_0, !fmap_nil. by rewrite drop_nil.
  - rewrite carrierPositions_S, rank_S, !fmap_app, IH by lia.
    case_bool_decide as Hm; [|by rewrite Nat.add_0_r, !fmap_nil, !app_nil_r].
    rewrite !list_fmap_singleton.
    assert (k < h * w) as Hk' by lia.
    destruct (index_coords w h k Hk') as (Hx & Hy & Hidx).
    assert (length (pixelLSB cover <$> carrierPositions mask k) = rank mask k) as Hlen
      by (by rewrite length_fmap).
    assert (pixelAt stego k
            = embedPixel cover mask bits (w * h)
                (Z.of_nat (k `mod` w)) (Z.of_nat (k / w))) as Hpx.
    { unfold pixelAt. rewrite Hw. apply Hat. }
    assert (scanned cover (Z.of_nat (k `mod` w)) (Z.of_nat (k / w)) = true) as Hsc
      by (by apply scanned_of_nat).
    assert (image.In (Z.of_nat (k `mod` w)) (Z.of_nat (k / w)) cover = true) as Hin
      by (by rewrite In_zero_origin).
    unfold pixelLSB at 2. rewrite Hpx. unfold embedPixel, consumed.
    rewrite indexOf_of_nat. fold w. rewrite Hidx, Hin, Hsc.
    know (k <? w * h).
    rewrite bool_decide_eq_true_2 by done. cbn [andb].
    destruct (Nat.ltb_spec (rank mask k) (length bits)) as [Hr|Hr]; cbn [andb].
    + destruct (lookup_lt_is_Some_2 bits (rank mask k) Hr) as [bit Hbit].
      rewrite (list_lookup_total_correct bits _ bit Hbit).
      rewrite lsb_withBlueLSB
        by (apply (proj1 (Forall_lookup _ bits) Hbits (rank mask k)); done).
      rewrite Nat.add_1_r, (take_S_r bits _ bit Hbit).
      rewrite !drop_ge by (rewrite ?length_app; simpl; lia).
      by rewrite !app_nil_r.
    + rewrite !take_ge by lia.
      rewrite drop_app_le by lia.
      rewrite At_NewRGBA_Draw by done.
      by rewrite <- app_assoc.
Qed.

(** ** Big-endian length field *)

Lemma testbit_byte_piece (v : N) (s k : N) :
  N.testbit (N.shiftl (N.shiftr v s mod 2 ^ 8) s) k
  = (s <=? k)%N && (k <? s + 8)%N && N.testbit v k.
Proof.
  destruct (N.leb_spec s k) as [Hs|Hs]; simpl.
  - rewrite N.shiftl_spec_high' by done.
    destruct (N.ltb_spec k (s + 8)) as [Hk|Hk]; simpl.
    + rewrite N.mod_pow2_bits_low by lia.
      rewrite N.shiftr_spec'. f_equal. lia.
    + apply N.mod_pow2_bits_high. lia.
  - apply N.shiftl_spec_low. done.
Qed.

(** Reading back a stored length gives its low 32 bits. *)
Lemma Uint32_PutUint32 (v : N) :
  BigEndian.Uint32 (BigEndian.PutUint32 v) = uint32 v.
Proof.
  unfold BigEndian.Uint32, BigEndian.PutUint32, uint32.
  cbn [lookup_total list_lookup_total].
  rewrite !uint8_facts.to_N_of_N. change 256%N with (2 ^ 8)%N.
  rewrite <- (N.shiftr_0_r v) at 1.
  rewrite <- (N.shiftl_0_r (N.shiftr v 0 mod 2 ^ 8)).
  apply N.bits_inj. intros k.
  rewrite !N.lor_spec, !testbit_byte_piece.
  destruct (N.ltb_spec k 32) as [Hk|Hk].
  - rewrite N.mod_pow2_bits_low by done.
    destruct (N.testbit v k); [|by rewrite !andb_false_r].
    rewrite !andb_true_r.
    destruct (N.leb_spec 0 k), (N.ltb_spec k (0 + 8)), (N.leb_spec 8 k),
      (N.ltb_spec k (8 + 8)), (N.leb_spec 16 k), (N.ltb_spec k (16 + 8)),
      (N.leb_spec 24 k), (N.ltb_spec k (24 + 8)); simpl; try done; lia.
  - rewrite N.mod_pow2_bits_high by done.
    destruct (N.ltb_spec k (0 + 8)), (N.ltb_spec k (8 + 8)),
      (N.ltb_spec k (16 + 8)), (N.ltb_spec k (24 + 8)); lia.
Qed.

Lemma testbit_shiftl_byte (b : byte) (s k : nat) :
  N.testbit (N.shiftl (Byte.to_N b) (N.of_nat s)) (N.of_nat k)
  = (s <=? k) && uint8.testbit b (k - s).
Proof.
  destruct (Nat.leb_spec s k) as [Hs|Hs]; cbn [andb].
  - rewrite N.shiftl_spec_high' by lia. unfold uint8.testbit. f_equal. lia.
  - apply N.shiftl_spec_low. lia.
Qed.

(** Bit [k] of [Uint32(b)] is bit [31 - k] of the byte sequence read
    most-significant bit first. *)
Lemma testbit_Uint32 (bytes : list byte) (k : nat) :
  N.testbit (BigEndian.Uint32 bytes) (N.of_nat k) = (k <? 32) && bitAt bytes (31 - k).
Proof.
  unfold BigEndian.Uint32. rewrite !N.lor_spec.
  change 8%N with (N.of_nat 8). change 16%N with (N.of_nat 16).
  change 24%N with (N.of_nat 24). rewrite !testbit_shiftl_byte.
  change (N.testbit (Byte.to_N (bytes !!! 3)) (N.of_nat k))
    with (uint8.testbit (bytes !!! 3) k).
  unfold bitAt.
  assert (k < 8 ∨ 8 ≤ k < 16 ∨ 16 ≤ k < 24 ∨ 24 ≤ k < 32 ∨ 32 ≤ k) as Hk by lia.
  destruct Hk as [Hk|[Hk|[Hk|[Hk|Hk]]]].
  - replace ((31 - k) / 8) with 3 by (apply Nat.div_unique with (7 - k); lia).
    replace ((31 - k) `mod` 8) with (7 - k) by (apply Nat.mod_unique with 3; lia).
    replace (7 - (7 - k)) with k by lia.
    destruct (Nat.leb_spec 8 k), (Nat.leb_spec 16 k), (Nat.leb_spec 24 k),
      (Nat.ltb_spec k 32); try lia.
    by rewrite !orb_false_r.
  - replace ((31 - k) / 8) with 2 by (apply Nat.div_unique with (15 - k); lia).
    replace ((31 - k) `mod` 8) with (15 - k) by (apply Nat.mod_unique with 2; lia).
    replace (7 - (15 - k)) with (k - 8) by lia.
    rewrite (uint8_facts.testbit_high _ k) by lia.
    destruct (Nat.leb_spec 8 k), (Nat.leb_spec 16 k), (Nat.leb_spec 24 k),
      (Nat.ltb_spec k 32); try lia.
    by rewrite !orb_false_r.
  - replace ((31 - k) / 8) with 1 by (apply Nat.div_unique with (23 - k); lia).
    replace ((31 - k) `mod` 8) with (23 - k) by (apply Nat.mod_unique with 1; lia).
    replace (7 - (23 - k)) with (k - 16) by lia.
    rewrite (uint8_facts.testbit_high _ k), (uint8_facts.testbit_high _ (k - 8)) by lia.
    destruct (Nat.leb_spec 8 k), (Nat.leb_spec 16 k), (Nat.leb_spec 24 k),
      (Nat.ltb_spec k 32); try lia.
    by rewrite !orb_false_r.
  - replace ((31 - k) / 8) with 0 by (apply Nat.div_unique with (31 - k); lia).
    replace ((31 - k) `mod` 8) with (31 - k) by (apply Nat.mod_unique with 0; lia).
    replace (7 - (31 - k)) with (k - 24) by lia.
    rewrite (uint8_facts.testbit_high _ k), (uint8_facts.testbit_high _ (k - 8)),
      (uint8_facts.testbit_high _ (k - 16)) by lia.
    destruct (Nat.leb_spec 8 k), (Nat.leb_spec 16 k), (Nat.leb_spec 24 k),
      (Nat.ltb_spec k 32); try lia.
    done.
  - rewrite (uint8_facts.testbit_high _ k), (uint8_facts.testbit_high _ (k - 8)),
      (uint8_facts.testbit_high _ (k - 16)), (uint8_facts.testbit_high _ (k - 24)) by lia.
    destruct (Nat.ltb_spec k 32); [lia|]. by rewrite !andb_false_r.
Qed.

Lemma bigEndianValue_snoc (bits : list byte) (b : byte) :
  bigEndianValue (bits ++ [b])
  = (2 * bigEndianValue bits + N.b2n (Byte.eqb b x01))%N.
Proof. unfold bigEndianValue. by rewrite fold_left_app. Qed.

(** Bit [k] of a big-endian value is the entry [k] places before the end. *)
Lemma testbit_bigEndianValue (bits : list byte) (k : nat) :
  N.testbit (bigEndianValue bits) (N.of_nat k)
  = (k <? length bits) && Byte.eqb (bits !!! (length bits - 1 - k)) x01.
Proof.
  revert k. induction bits as [|b bits IH] using rev_ind; intros k.
  - apply N.bits_0.
  - rewrite bigEndianValue_snoc, length_app. cbn [length].
    destruct k as [|k].
    + rewrite N.testbit_0_r.
      replace (length bits + 1 - 1 - 0) with (length bits) by lia.
      rewrite list_lookup_total_middle by done.
      know (0 <? length bits + 1).
      done.
    + rewrite Nat2N.inj_succ, N.testbit_succ_r, IH.
      destruct (Nat.ltb_spec k (length bits)) as [Hk|Hk].
      * know (S k <? length bits + 1).
        rewrite lookup_total_app_l by lia.
        replace (length bits + 1 - 1 - S k) with (length bits - 1 - k) by lia.
        done.
      * know (S k <? length bits + 1).
        done.
Qed.

(** Packing 32 bits and reading them as a [uint32] gives their
    big-endian value. *)
Lemma Uint32_bitsToBytes (bits : list byte) :
  length bits = 32 →
  BigEndian.Uint32 (bitsToBytes bits) = bigEndianValue bits.
Proof.
  intros Hlen. apply N.bits_inj. intros K.
  rewrite <- (N2Nat.id K). set (k := N.to_nat K).
  rewrite testbit_Uint32, testbit_bigEndianValue, Hlen, bitAt_bitsToBytes.
  destruct (Nat.ltb_spec k 32) as [Hk|Hk]; cbn [andb]; [|done].
  replace (32 - 1 - k) with (31 - k) by lia.
  assert (31 - k < length bits) as Hi by lia.
  destruct (lookup_lt_is_Some_2 bits _ Hi) as [b Hb].
  rewrite Hb, (list_lookup_total_correct bits _ b Hb).
  destruct (Byte.eqb b x01) eqn:E.
  - apply Byte.byte_dec_bl in E. subst b. by apply bool_decide_eq_true_2.
  - apply bool_decide_eq_false_2. intros [= ->]. by rewrite Byte.byte_dec_lb in E.
Qed.

(** ** Extractor *)

Lemma length_fit (n : nat) (bits : list byte) : length (fit n bits) = n.
Proof. unfold fit. rewrite length_app, length_take, length_replicate. lia. Qed.

Lemma fit_exact (n : nat) (bits rest : list byte) :
  length bits = n → fit n (bits ++ rest) = bits.
Proof.
  intros Hn. unfold fit. rewrite take_app_length' by done.
  rewrite length_app. replace (n - (length bits + length rest)) with 0 by lia.
  apply app_nil_r.
Qed.

Lemma fit_app_ge (n : nat) (bits rest : list byte) :
  n ≤ length bits → fit n (bits ++ rest) = fit n bits.
Proof.
  intros Hn. unfold fit. rewrite take_app_le by done.
  rewrite length_app.
  replace (n - (length bits + length rest)) with 0 by lia.
  replace (n - length bits) with 0 by lia. done.
Qed.

(** A padded bit sequence has a one exactly where the sequence has. *)
Lemma lookup_fit_one (n : nat) (bits : list byte) (i : nat) :
  fit n bits !! i = Some x01 ↔ i < n ∧ bits !! i = Some x01.
Proof.
  unfold fit. destruct (decide (i < n `min` length bits)) as [Hi|Hi].
  - rewrite lookup_app_l by (rewrite length_take; lia).
    rewrite lookup_take_lt by lia. intuition lia.
  - rewrite lookup_app_r by (rewrite length_take; lia).
    rewrite length_take. split.
    + intros H. apply lookup_replicate in H as [H _]. discriminate H.
    + intros [Hn Hb]. apply lookup_lt_Some in Hb. lia.
Qed.

(** Or-ing a bit into its place of a most-significant-bit-first array. *)
Lemma bitAt_or_bit (bytes : list byte) (e : nat) (b : byte) (j : nat) :
  e / 8 < length bytes →
  b = x00 ∨ b = x01 →
  bitAt (<[e / 8 := uint8.or (bytes !!! (e / 8)) (uint8.shl b (7 - e `mod` 8))]> bytes) j
  = bitAt bytes j || ((j =? e) && Byte.eqb b x01).
Proof.
  intros He Hb. unfold bitAt.
  pose proof (Nat.Div0.div_mod j 8). pose proof (Nat.Div0.div_mod e 8).
  pose proof (Nat.mod_upper_bound j 8). pose proof (Nat.mod_upper_bound e 8).
  destruct (decide (j / 8 = e / 8)) as [Heq|Hne].
  - rewrite Heq, list_lookup_total_insert_eq by done.
    rewrite uint8_facts.testbit_or, uint8_facts.testbit_shl. f_equal.
    destruct Hb as [-> | ->].
    + by rewrite uint8_facts.testbit_x00, !andb_false_r.
    + rewrite uint8_facts.testbit_x01. simpl Byte.eqb.
      know (7 - j `mod` 8 <? 8).
      rewrite andb_true_r. cbn [andb].
      destruct (Nat.leb_spec (7 - e `mod` 8) (7 - j `mod` 8)),
        (Nat.eqb_spec (7 - j `mod` 8 - (7 - e `mod` 8)) 0),
        (Nat.eqb_spec j e); cbn [andb]; try done; exfalso; lia.
  - rewrite list_lookup_total_insert_ne by done.
    replace (j =? e) with false by (symmetry; apply Nat.eqb_neq; congruence).
    by rewrite orb_false_r.
Qed.

Lemma pixelLSB_bit (img : image.Image) (i : nat) :
  pixelLSB img i = x00 ∨ pixelLSB img i = x01.
Proof.
  unfold pixelLSB. rewrite uint8_facts.and_x01.
  destruct (uint8.testbit _ 0); auto.
Qed.

(** The header loop packs the first 32 carrier bits, most-significant bit
    first, into the four length bytes. *)
Lemma header_loop_spec (stego : image.Image) (mask : list bool) :
  length mask = image.Dx stego * image.Dy stego →
  (for_while header_cond
     (λ y, for_while header_cond (header_body stego mask (image.Dx stego) y)
             (image.Dx stego))
     (image.Dy stego) (replicate 4 x00, 0)).1
  = bitsToBytes (fit 32 (carrierBits stego mask)).
Proof.
  intros Hmask.
  set (w := image.Dx stego) in *. set (h := image.Dy stego) in *.
  rewrite for_nested_flat.
  pose (CB := λ k, pixelLSB stego <$> carrierPositions mask k).
  pose (P := λ (k : nat) (st : list byte * nat),
    st.2 = rank mask k `min` 32 ∧ length st.1 = 4
    ∧ ∀ j, bitAt st.1 j = (j <? st.2) && bool_decide (CB k !! j = Some x01)).
  match goal with |- ?r.1 = _ => enough (P (h * w) r) as (He & Hl & Hb) end.
  { apply bytes_ext.
    - by rewrite length_bitsToBytes, length_fit.
    - intros i Hi. rewrite Hb, He, bitAt_bitsToBytes.
      unfold carrierBits. fold w h. rewrite (Nat.mul_comm w h). fold (CB (h * w)).
      assert (length (CB (h * w)) = rank mask (h * w)) as HlCB
        by (unfold CB; by rewrite length_fmap).
      apply eq_true_iff_eq. rewrite andb_true_iff, !bool_decide_eq_true, lookup_fit_one.
      rewrite Nat.ltb_lt. split.
      + intros [? ?]. split; [lia|done].
      + intros [? Hlk]. split; [|done]. apply lookup_lt_Some in Hlk. lia. }
  apply for_while_ind; unfold P; clear P.
  - simpl. split; [done|]. split; [done|]. intros j. unfold bitAt.
    assert (∀ i, (replicate 4 x00 : list byte) !!! i = x00) as Hz.
    { intros i. destruct (decide (i < 4)).
      - by rewrite lookup_total_replicate_2.
      - rewrite list_lookup_total_alt.
        by rewrite (proj1 (lookup_replicate_None 4 x00 i)) by lia. }
    by rewrite Hz, uint8_facts.testbit_x00.
  - intros k [lb eb] Hk (He & Hl & Hb) Hc. simpl in He, Hl, Hb.
    unfold header_cond in Hc. simpl in Hc. apply Nat.ltb_lt in Hc.
    destruct (index_coords w h k Hk) as (Hx & Hy & Hidx).
    unfold header_body. rewrite Hidx, lookup_total_mask by lia.
    unfold CB. rewrite rank_S, carrierPositions_S, fmap_app. fold (CB k).
    assert (length (CB k) = rank mask k) as HlCB by (unfold CB; by rewrite length_fmap).
    case_bool_decide as Hm; cbn [fst snd].
    + change (uint8.and (color.B (image.At stego (Z.of_nat (k `mod` w)) (Z.of_nat (k / w)))) x01)
        with (pixelLSB stego k).
      split; [lia|]. split; [by rewrite length_insert|].
      intros j. rewrite bitAt_or_bit, Hb.
      2:{ rewrite Hl. apply Nat.Div0.div_lt_upper_bound. lia. }
      2:{ apply pixelLSB_bit. }
      rewrite list_fmap_singleton.
      assert (eb = length (CB k)) as Heb by lia.
      destruct (lt_eq_lt_dec j eb) as [[Hlt|Heq]|Hgt].
      * know (j =? eb).
        know (j <? eb).
        know (j <? S eb).
        rewrite lookup_app_l by lia. by rewrite orb_false_r.
      * subst j. rewrite Nat.eqb_refl, Nat.ltb_irrefl.
        know (eb <? S eb).
        rewrite (list_lookup_middle (CB k) [] (pixelLSB stego k) eb Heb).
        cbn [andb orb]. destruct (pixelLSB_bit stego k) as [-> | ->]; done.
      * know (j =? eb).
        know (j <? eb).
        know (j <? S eb).
        done.
    + rewrite fmap_nil, app_nil_r, Nat.add_0_r. done.
  - intros k [lb eb] Hk (He & Hl & Hb) Hc. simpl in He, Hl, Hb.
    unfold header_cond in Hc. simpl in Hc. apply Nat.ltb_ge in Hc.
    cbn [fst snd]. split; [|split; [done|]].
    + rewrite rank_S. case_bool_decide; lia.
    + intros j. rewrite Hb. unfold CB.
      rewrite carrierPositions_S, fmap_app. fold (CB k).
      assert (length (CB k) = rank mask k) as HlCB by (unfold CB; by rewrite length_fmap).
      destruct (Nat.ltb_spec j eb) as [Hj|Hj]; [|done].
      rewrite lookup_app_l by lia. done.
Qed.

(** The payload loop skips 32 carriers and stores the bits of the next
    [n]; where the carriers run out, the slice keeps its zeros. *)
Lemma data_loop_spec (stego : image.Image) (mask : list bool) (n : nat) :
  length mask = image.Dx stego * image.Dy stego →
  (for_while data_cond
     (λ y, for_while data_cond (data_body stego mask (image.Dx stego) y)
             (image.Dx stego))
     (image.Dy stego) (replicate n x00, 0, 0)).1.1
  = fit n (drop 32 (carrierBits stego mask)).
Proof.
  intros Hmask.
  set (w := image.Dx stego) in *. set (h := image.Dy stego) in *.
  rewrite for_nested_flat.
  pose (CB := λ k, pixelLSB stego <$> carrierPositions mask k).
  pose (P := λ (k : nat) (st : list byte * nat * nat),
    st.1.1 = fit n (drop 32 (CB k))
    ∧ st.1.2 = (rank mask k - 32) `min` n
    ∧ (st.1.2 < n → st.2 = rank mask k `min` 32)).
  match goal with |- ?r.1.1 = _ => enough (P (h * w) r) as (Hd & _ & _) end.
  { rewrite Hd. unfold carrierBits, CB. fold w h. by rewrite (Nat.mul_comm w h). }
  assert (∀ k, length (CB k) = rank mask k) as HlCB
    by (intros k; unfold CB; by rewrite length_fmap).
  apply for_while_ind; unfold P; clear P.
  - cbn [fst snd]. split; [|split; [|intros _]]; try done.
    unfold fit, CB. change (carrierPositions mask 0) with (@nil nat).
    rewrite fmap_nil, drop_nil, take_nil. simpl. by rewrite Nat.sub_0_r.
  - intros k [[db eb] sk] Hk (Hd & He & Hs) Hc. cbn [fst snd] in Hd, He, Hs.
    unfold data_cond in Hc. cbn [fst snd] in Hc. apply Nat.ltb_lt in Hc.
    rewrite Hd, length_fit in Hc. specialize (Hs Hc).
    destruct (index_coords w h k Hk) as (Hx & Hy & Hidx).
    unfold data_body. rewrite Hidx, lookup_total_mask by lia.
    unfold CB. rewrite rank_S, carrierPositions_S, fmap_app. fold (CB k).
    case_bool_decide as Hm.
    + rewrite list_fmap_singleton.
      change (uint8.and (color.B (image.At stego (Z.of_nat (k `mod` w)) (Z.of_nat (k / w)))) x01)
        with (pixelLSB stego k).
      destruct (Nat.ltb_spec sk 32) as [Hsk|Hsk]; cbn [andb fst snd].
      * rewrite !drop_ge in * by (rewrite ?length_app, HlCB; simpl; lia).
        split; [done|]. split; [lia|]. intros _. lia.
      * rewrite drop_app_le by (rewrite HlCB; lia).
        split; [|split; [lia|intros _; lia]].
        rewrite Hd. unfold fit.
        assert (length (drop 32 (CB k)) = eb) as Hl
          by (rewrite length_drop, HlCB; lia).
        rewrite length_app, Hl. simpl length.
        rewrite !take_ge by (rewrite ?length_app, Hl; simpl; lia).
        replace (n - eb) with (S (n - (eb + 1))) by lia.
        rewrite insert_app_r_alt by lia. rewrite Hl, Nat.sub_diag.
        simpl. by rewrite <- app_assoc.
    + rewrite fmap_nil, app_nil_r, Nat.add_0_r.
      rewrite andb_false_r. cbn [fst snd]. done.
  - intros k [[db eb] sk] Hk (Hd & He & Hs) Hc. cbn [fst snd] in Hd, He, Hs.
    unfold data_cond in Hc. cbn [fst snd] in Hc. apply Nat.ltb_ge in Hc.
    rewrite Hd, length_fit in Hc.
    cbn [fst snd]. split; [|split; [|intros ?; lia]].
    + rewrite Hd. unfold CB. rewrite carrierPositions_S, fmap_app. fold (CB k).
      rewrite drop_app. symmetry. apply fit_app_ge.
      rewrite length_drop, HlCB. lia.
    + rewrite rank_S. case_bool_decide; lia.
Qed.

(** [Extract] without its loops. *)
Lemma Extract_spec (stego : image.Image) (rate : float) (params : FractalParams) :
  let mask := maskOf stego params in
  let len := decodedLength stego mask in
  Extract stego {| EmbeddingRate := rate; FractalParams_ := Some params |}
  = if (len =? 0)%N
       || (uint32 (N.of_nat (image.Dx stego * image.Dy stego)) <? len)%N
    then (None, Some InvalidLength)
    else (Some (bitsToBytes
                  (fit (N.to_nat (uint32_mul len 8)) (drop 32 (carrierBits stego mask)))),
          None).
Proof.
  intros mask len. unfold Extract. cbn [FractalParams_].
  fold (maskOf stego params). fold mask.
  assert (length mask = image.Dx stego * image.Dy stego) as Hlen
    by apply length_generateFractalPattern.
  pose proof (header_loop_spec stego mask Hlen) as Hh.
  destruct (for_while header_cond _ _ _) as [lengthBytes eb].
  cbn [fst] in Hh. subst lengthBytes.
  rewrite Uint32_bitsToBytes by apply length_fit.
  fold (decodedLength stego mask). fold len.
  destruct ((len =? 0)%N || _); [done|].
  pose proof (data_loop_spec stego mask (N.to_nat (uint32_mul len 8)) Hlen) as Hd.
  destruct (for_while data_cond _ _ _) as [[dataBits eb'] sk].
  cbn [fst] in Hd. by subst dataBits.
Qed.

(* ================================================================== *)
(** * The claims *)

(** ** Bit codec *)

(** C5: round trip of the bit codec. For every byte sequence [d],
    [bitsToBytes (bytesToBits d) = d]; [bytesToBits] yields [8 * len d]
    bits, the bit at [8*i + j] being bit [7 - j] of byte [i] (most
    significant first); [bitsToBytes] yields [ceil(n/8)] bytes for [n]
    bits, bit [7 - j] of byte [k] being set exactly when the input holds a
    one at [8*k + j], so the bits past the input in the last byte are
    zero. *)
Theorem bit_codec_round_trip (d : list byte) :
  bitsToBytes (bytesToBits d) = d
  ∧ length (bytesToBits d) = 8 * length d
  ∧ (∀ i j, i < length d → j < 8 →
       bytesToBits d !! (i * 8 + j)
       = Some (if uint8.testbit (d !!! i) (7 - j) then x01 else x00))
  ∧ ∀ bits : list byte,
      (length bits ≤ 8 * length (bitsToBytes bits)
       ∧ 8 * length (bitsToBytes bits) < length bits + 8)
      ∧ ∀ k j, j < 8 →
          uint8.testbit (bitsToBytes bits !!! k) (7 - j)
          = bool_decide (bits !! (k * 8 + j) = Some x01).
Proof.
  split; [apply bitsToBytes_bytesToBits|].
  split; [apply length_bytesToBits|].
  split.
  - intros i j Hi Hj. rewrite lookup_bytesToBits by lia.
    by rewrite bitOf_spec, bitAt_byte.
  - intros bits. split.
    + rewrite length_bitsToBytes.
      pose proof (Nat.Div0.div_mod (length bits + 7) 8).
      pose proof (Nat.mod_upper_bound (length bits + 7) 8). lia.
    + intros k j Hj. by rewrite <- bitAt_byte, bitAt_bitsToBytes.
Qed.

(** ** Pattern generator *)

(** C7: degenerate iterations. With [Iterations = 0] the escape loop never
    runs and every entry of the [width * height] mask is [true], whatever
    the variant and the threshold. *)
Theorem mask_zero_iterations (width height : nat) (t : string) (thr : float) :
  generateFractalPattern width height
    {| Type_ := t; Iterations := 0; Threshold := thr |}
  = replicate (width * height) true.
Proof. by apply generateFractalPattern_const. Qed.

(** C9: unrecognized variants. Any variant tag other than ["Julia"] gives
    the mask of the Mandelbrot variant. *)
Theorem mask_unrecognized_variant (width height : nat) (t : string) (n : Z) (thr : float) :
  t ≠ "Julia"%string →
  generateFractalPattern width height
    {| Type_ := t; Iterations := n; Threshold := thr |}
  = generateFractalPattern width height
      {| Type_ := "Mandelbrot"; Iterations := n; Threshold := thr |}.
Proof.
  intros Ht. rewrite !generateFractalPattern_flat.
  apply list_fmap_ext. intros _ i _. unfold fractalPixel. cbn [Iterations].
  f_equal. apply escape_variant; [|done..]. cbn [Type_].
  destruct (String.eqb_spec t "Julia"); [done|]. done.
Qed.

Lemma mask_unrecognized_variant_witness :
  generateFractalPattern 6 4
    {| Type_ := "Sierpinski"; Iterations := 30; Threshold := 2.0 |}
  = generateFractalPattern 6 4
      {| Type_ := "Mandelbrot"; Iterations := 30; Threshold := 2.0 |}.
Proof. apply (mask_unrecognized_variant 6 4 "Sierpinski" 30 2.0). discriminate. Defined.

(** C10: the Julia mask is constant. The Julia recurrence starts from
    [z = 0] with a fixed constant and never reads the pixel's coordinate,
    so the mask is all-[true] or all-[false]: any two entries agree. *)
Theorem julia_mask_constant (width height : nat) (n : Z) (thr : float) :
  let mask := generateFractalPattern width height
                {| Type_ := "Julia"; Iterations := n; Threshold := thr |} in
  (mask = replicate (width * height) true ∨ mask = replicate (width * height) false)
  ∧ ∀ p q bp bq, mask !! p = Some bp → mask !! q = Some bq → bp = bq.
Proof.
  set (params := {| Type_ := "Julia"; Iterations := n; Threshold := thr |}).
  assert (∀ x y, fractalPixel width height params x y
                 = fractalPixel width height params 0 0) as Hconst.
  { intros x y. unfold fractalPixel. f_equal. by apply escape_julia. }
  pose proof (generateFractalPattern_const width height params _ Hconst) as Hm.
  intros mask. subst mask. rewrite Hm. split.
  - destruct (fractalPixel width height params 0 0); auto.
  - intros p q bp bq Hp Hq.
    apply lookup_replicate in Hp as [-> _].
    apply lookup_replicate in Hq as [-> _]. done.
Qed.

(** ** Missing parameters *)

(** C8: missing parameters. With [FractalParams = nil], [Embed] and
    [Extract] return no value and the error [MissingParameters], whatever
    the image and the payload: no pixel decides the result and no image or
    byte sequence is produced. *)
Theorem missing_parameters (rate : float) :
  (∀ cover data,
     Embed cover data {| EmbeddingRate := rate; FractalParams_ := None |}
     = (None, Some MissingParameters))
  ∧ ∀ stego,
      Extract stego {| EmbeddingRate := rate; FractalParams_ := None |}
      = (None, Some MissingParameters).
Proof. split; reflexivity. Qed.

(** ** Embedder *)

(** C4: channel isolation. When [Embed] succeeds, the output has the
    cover's bounds, so its dimensions, and, at every pixel of these
    bounds, wherever they start, the cover's red, green and alpha channels
    and the upper seven bits of blue; a pixel that is not a consumed
    carrier position (marked by the mask, with fewer than
    [32 + 8 * len data] carriers before it in row-major order) is the
    cover's pixel unchanged. *)
Theorem embed_channel_isolation (cover : image.Image) (data : list byte)
    (config : Config) (stego : image.Image) :
  Embed cover data config = (Some stego, None) →
  (image.MinX stego = image.MinX cover ∧ image.MinY stego = image.MinY cover)
  ∧ image.Dx stego = image.Dx cover ∧ image.Dy stego = image.Dy cover
  ∧ ∃ params, FractalParams_ config = Some params
    ∧ ∀ x y, image.In x y cover = true →
        let c := image.At cover x y in
        let s := image.At stego x y in
        color.R s = color.R c ∧ color.G s = color.G c ∧ color.A s = color.A c
        ∧ uint8.shr (color.B s) 1 = uint8.shr (color.B c) 1
        ∧ (consumed cover (maskOf cover params) (32 + 8 * length data) x y = false
           → s = c).
Proof.
  intros Hrun. destruct config as [rate [params|]]; [|discriminate Hrun].
  destruct (Nat.ltb_spec (image.Dx cover * image.Dy cover) (32 + length data * 8))
    as [Hsmall|Hcap].
  { unfold Embed in Hrun. cbn [FractalParams_] in Hrun.
    apply Nat.ltb_lt in Hsmall. rewrite Hsmall in Hrun. discriminate Hrun. }
  destruct (Embed_spec cover data rate params Hcap)
    as (stego' & Hrun' & Hmin & Hw & Hh & Hat).
  rewrite Hrun in Hrun'. injection Hrun' as <-.
  split; [done|]. split; [done|]. split; [done|]. exists params. split; [done|].
  intros x y Hin c s. subst c s. rewrite Hat. unfold embedPixel.
  rewrite At_NewRGBA_Draw by done. rewrite length_envelope.
  destruct (consumed cover (maskOf cover params) (32 + 8 * length data) x y) eqn:Hcons;
    cbn [andb]; [|done].
  destruct (_ <? _); [|done].
  assert (envelope data !!! rank (maskOf cover params) (indexOf cover x y) = x00
          ∨ envelope data !!! rank (maskOf cover params) (indexOf cover x y) = x01)
    as Hbit.
  { destruct (consumed_inv _ _ _ _ _ _ eq_refl Hcons) as (_ & _ & _ & _ & Hr).
    rewrite <- length_envelope in Hr.
    destruct (lookup_lt_is_Some_2 _ _ Hr) as [bit Hbit].
    rewrite (list_lookup_total_correct _ _ bit Hbit).
    apply (proj1 (Forall_lookup _ _) (envelope_bits data) _ _ Hbit). }
  split; [done|]. split; [done|]. split; [done|].
  split; [by apply upper_withBlueLSB|]. intros Hf. discriminate Hf.
Qed.

Lemma embed_channel_isolation_witness :
  ∃ stego,
    Embed (uniformImage 8 5 x10 x20 x33) [x48] (fractalConfig "Julia" 50 2.0)
    = (Some stego, None)
    ∧ image.Dx stego = 8 ∧ image.Dy stego = 5
    ∧ color.R (image.At stego 1 0) = x10
    ∧ uint8.shr (color.B (image.At stego 1 0)) 1 = uint8.shr x33 1.
Proof.
  destruct (Embed_spec (uniformImage 8 5 x10 x20 x33) [x48] 0.5
              {| Type_ := "Julia"; Iterations := 50; Threshold := 2.0 |})
    as (stego & Hrun & _); [simpl; lia|].
  exists stego. split; [exact Hrun|].
  destruct (embed_channel_isolation _ _ _ _ Hrun) as (_ & Hw & Hh & params & _ & Hpx).
  split; [exact Hw|]. split; [exact Hh|].
  destruct (Hpx 1%Z 0%Z) as (Hr & _ & _ & Hb & _); [reflexivity|].
  split; [exact Hr|exact Hb].
Defined.

(** C2, as the code has it: the capacity check of [Embed] compares the
    required bits with the pixel count [width * height], not with the
    carrier count of the mask. With parameters present, [Embed] succeeds
    exactly when [32 + 8 * len data <= width * height], and fails with
    [CapacityExceeded] exactly otherwise. *)
Theorem embed_capacity_check (cover : image.Image) (data : list byte)
    (rate : float) (params : FractalParams) :
  let config := {| EmbeddingRate := rate; FractalParams_ := Some params |} in
  ((∃ stego, Embed cover data config = (Some stego, None))
   ↔ 32 + 8 * length data ≤ image.Dx cover * image.Dy cover)
  ∧ (Embed cover data config = (None, Some CapacityExceeded)
     ↔ image.Dx cover * image.Dy cover < 32 + 8 * length data).
Proof.
  intros config.
  destruct (Nat.ltb_spec (image.Dx cover * image.Dy cover) (32 + length data * 8))
    as [Hsmall|Hcap].
  - assert (Embed cover data config = (None, Some CapacityExceeded)) as Hrun.
    { unfold Embed. cbn [FractalParams_ config].
      apply Nat.ltb_lt in Hsmall. by rewrite Hsmall. }
    split; split.
    + intros [stego Hs]. rewrite Hrun in Hs. discriminate Hs.
    + lia.
    + lia.
    + done.
  - destruct (Embed_spec cover data rate params Hcap) as (stego & Hrun & _).
    fold config in Hrun. split; split.
    + lia.
    + by exists stego.
    + intros Hf. rewrite Hrun in Hf. discriminate Hf.
    + lia.
Qed.

(** C2 fails as stated: on an 8x8 cover the Mandelbrot mask (100
    iterations, threshold 2.0) has fewer than the 64 carriers that a 4-byte
    payload requires, and [Embed] succeeds all the same. *)
Lemma embed_capacity_counterexample :
  carrierCount (maskOf (uniformImage 8 8 x10 x20 x33)
                  {| Type_ := "Mandelbrot"; Iterations := 100; Threshold := 2.0 |})
  < 32 + 8 * length [x74; x65; x73; x74]
  ∧ ∃ stego,
      Embed (uniformImage 8 8 x10 x20 x33) [x74; x65; x73; x74]
        (fractalConfig "Mandelbrot" 100 2.0)
      = (Some stego, None).
Proof.
  split.
  - vm_compute. lia.
  - destruct (Embed_spec (uniformImage 8 8 x10 x20 x33) [x74; x65; x73; x74] 0.5
                {| Type_ := "Mandelbrot"; Iterations := 100; Threshold := 2.0 |})
      as (stego & Hrun & _); [simpl; lia|].
    by exists stego.
Qed.

(** ** Extractor *)

(** The guard of [Extract] on the decoded length, in the 32-bit
    arithmetic of the code: [length == 0 || length > uint32(width*height)]. *)
Lemma Extract_length_guard (stego : image.Image) (rate : float) (params : FractalParams) :
  let len := decodedLength stego (maskOf stego params) in
  Extract stego {| EmbeddingRate := rate; FractalParams_ := Some params |}
  = (None, Some InvalidLength)
  ↔ (len = 0 ∨ uint32 (N.of_nat (image.Dx stego * image.Dy stego)) < len)%N.
Proof.
  intros len. rewrite Extract_spec. fold len.
  destruct (N.eqb_spec len 0) as [Hz|Hz]; cbn [orb].
  - split; [auto|done].
  - destruct (N.ltb_spec (uint32 (N.of_nat (image.Dx stego * image.Dy stego))) len)
      as [Hlt|Hge].
    + split; [auto|done].
    + split; [discriminate|]. intros [?|?]; [done|lia].
Qed.

(** C6, as the code has it: the decoded length is measured against the
    pixel count, not against the capacity of the carriers. On an image of
    fewer than 2^32 pixels and with parameters present, [Extract] fails
    with [InvalidLength] exactly when the length decoded from the blue
    least-significant bits of the first 32 carrier positions is zero or
    exceeds [width * height]. *)
Theorem extract_invalid_length (stego : image.Image) (rate : float) (params : FractalParams) :
  let len := decodedLength stego (maskOf stego params) in
  (N.of_nat (image.Dx stego * image.Dy stego) < 2 ^ 32)%N →
  Extract stego {| EmbeddingRate := rate; FractalParams_ := Some params |}
  = (None, Some InvalidLength)
  ↔ (len = 0 ∨ N.of_nat (image.Dx stego * image.Dy stego) < len)%N.
Proof.
  intros len Hsize.
  pose proof (Extract_length_guard stego rate params) as H. fold len in H.
  unfold uint32 in H. by rewrite N.mod_small in H.
Qed.

Lemma extract_invalid_length_witness :
  Extract (uniformImage 8 5 x10 x20 x80) (fractalConfig "Julia" 50 2.0)
  = (None, Some InvalidLength)
  ↔ (decodedLength (uniformImage 8 5 x10 x20 x80)
       (maskOf (uniformImage 8 5 x10 x20 x80)
          {| Type_ := "Julia"; Iterations := 50; Threshold := 2.0 |}) = 0
     ∨ 40 < decodedLength (uniformImage 8 5 x10 x20 x80)
              (maskOf (uniformImage 8 5 x10 x20 x80)
                 {| Type_ := "Julia"; Iterations := 50; Threshold := 2.0 |}))%N.
Proof.
  apply (extract_invalid_length (uniformImage 8 5 x10 x20 x80) 0.5
           {| Type_ := "Julia"; Iterations := 50; Threshold := 2.0 |}).
  reflexivity.
Defined.

(** C6 fails as stated: [longHeaderImage] has 40 carrier positions under
    the Julia mask, room for one payload byte after the header; its header
    announces 40 bytes, forty times that capacity, and [Extract] accepts it
    and returns 40 bytes instead of failing with [InvalidLength]. *)
Lemma extract_invalid_length_counterexample :
  carrierCount (maskOf longHeaderImage
                  {| Type_ := "Julia"; Iterations := 50; Threshold := 2.0 |}) = 40
  ∧ (carrierCount (maskOf longHeaderImage
                     {| Type_ := "Julia"; Iterations := 50; Threshold := 2.0 |}) - 32) / 8
    = 1
  ∧ decodedLength longHeaderImage
      (maskOf longHeaderImage {| Type_ := "Julia"; Iterations := 50; Threshold := 2.0 |})
    = 40%N
  ∧ Extract longHeaderImage (fractalConfig "Julia" 50 2.0)
    = (Some (replicate 40 x00), None).
Proof. vm_compute. done. Qed.

(** C3, as the code has it: there is no [TruncatedExtraction]. When the
    header is accepted and the carrier positions run out before
    [length * 8] payload bits are read, [Extract] returns, without error,
    the packing of the bits it did read followed by zero bits. *)
Theorem extract_truncated (stego : image.Image) (rate : float) (params : FractalParams) :
  let mask := maskOf stego params in
  let len := decodedLength stego mask in
  let n := N.to_nat (uint32_mul len 8) in
  len ≠ 0%N →
  (len ≤ uint32 (N.of_nat (image.Dx stego * image.Dy stego)))%N →
  carrierCount mask < 32 + n →
  Extract stego {| EmbeddingRate := rate; FractalParams_ := Some params |}
  = (Some (bitsToBytes (drop 32 (carrierBits stego mask)
                        ++ replicate (n - (carrierCount mask - 32)) x00)),
     None).
Proof.
  intros mask len n Hz Hle Hshort. rewrite Extract_spec. fold mask len n.
  destruct (N.eqb_spec len 0) as [?|_]; [done|]. cbn [orb].
  destruct (N.ltb_spec (uint32 (N.of_nat (image.Dx stego * image.Dy stego))) len)
    as [?|_]; [lia|].
  assert (length (carrierBits stego mask) = carrierCount mask) as Hl.
  { unfold carrierBits. rewrite length_fmap. fold (rank mask (image.Dx stego * image.Dy stego)).
    rewrite <- (length_generateFractalPattern (image.Dx stego) (image.Dy stego) params).
    apply rank_carrierCount. }
  unfold fit. rewrite length_drop, Hl.
  rewrite take_ge by (rewrite length_drop, Hl; lia). done.
Qed.

Lemma extract_truncated_witness :
  Extract shortImage (fractalConfig "Julia" 50 2.0) = (Some [xff; x00], None).
Proof.
  apply (extract_truncated shortImage 0.5
           {| Type_ := "Julia"; Iterations := 50; Threshold := 2.0 |}).
  - vm_compute. discriminate.
  - vm_compute. discriminate.
  - vm_compute. lia.
Defined.

(** C3 fails as stated: [shortImage] has 40 carrier positions under the
    Julia mask, its header announces 2 bytes, the carriers run out after 8
    of the 16 payload bits, and [Extract] returns two bytes, the second
    one zero padding, rather than an error. *)
Lemma extract_truncated_counterexample :
  carrierCount (maskOf shortImage
                  {| Type_ := "Julia"; Iterations := 50; Threshold := 2.0 |}) = 40
  ∧ decodedLength shortImage
      (maskOf shortImage {| Type_ := "Julia"; Iterations := 50; Threshold := 2.0 |})
    = 2%N
  ∧ Extract shortImage (fractalConfig "Julia" 50 2.0) = (Some [xff; x00], None).
Proof. vm_compute. done. Qed.

(** ** Round trip *)

(** C1, as the code has it: for a cover whose bounds start at [(0,0)],
    of fewer than 2^32 pixels, and a non-empty payload whose
    [32 + 8 * len data] bits fit the carrier count of the mask, [Embed]
    succeeds and [Extract] on its output, with the same parameters, returns
    the payload. *)
Theorem embed_extract_round_trip (cover : image.Image) (data : list byte)
    (rate : float) (params : FractalParams) :
  let config := {| EmbeddingRate := rate; FractalParams_ := Some params |} in
  image.MinX cover = 0%Z → image.MinY cover = 0%Z →
  data ≠ [] →
  (N.of_nat (image.Dx cover * image.Dy cover) < 2 ^ 32)%N →
  32 + 8 * length data ≤ carrierCount (maskOf cover params) →
  ∃ stego,
    Embed cover data config = (Some stego, None)
    ∧ Extract stego config = (Some data, None).
Proof.
  intros config Hmx Hmy Hne Hsize Hfit.
  set (mask := maskOf cover params) in *.
  assert (length mask = image.Dx cover * image.Dy cover) as Hlen
    by apply length_generateFractalPattern.
  pose proof (carrierCount_le mask) as Hcc.
  destruct (Embed_spec cover data rate params) as (stego & Hrun & _ & Hw & Hh & Hat); [lia|].
  exists stego. split; [done|].
  assert (maskOf stego params = mask) as Hmask
    by (unfold maskOf, mask; by rewrite Hw, Hh).
  pose proof (carrierBits_embedded cover stego mask (envelope data)
                Hmx Hmy Hlen Hw Hh Hat (envelope_bits data)) as HCB.
  rewrite take_ge in HCB by (rewrite length_envelope; lia).
  unfold envelope in HCB. rewrite <- app_assoc in HCB.
  set (hdr := BigEndian.PutUint32 (uint32 (N.of_nat (length data)))) in *.
  assert (length (bytesToBits hdr) = 32) as Hhdr by (by rewrite length_bytesToBits).
  assert (length data ≠ 0) as Hne' by (by destruct data).
  assert (decodedLength stego mask = N.of_nat (length data)) as Hdec.
  { unfold decodedLength. rewrite HCB, fit_exact by done.
    rewrite <- Uint32_bitsToBytes by done.
    rewrite bitsToBytes_bytesToBits. unfold hdr.
    rewrite Uint32_PutUint32. unfold uint32.
    rewrite N.Div0.mod_mod. apply N.mod_small. lia. }
  unfold config. rewrite Extract_spec, Hmask, Hdec, Hw, Hh.
  destruct (N.eqb_spec (N.of_nat (length data)) 0) as [?|_]; [lia|]. cbn [orb].
  unfold uint32 at 1. rewrite N.mod_small by done.
  destruct (N.ltb_spec (N.of_nat (image.Dx cover * image.Dy cover))
              (N.of_nat (length data))) as [?|_]; [lia|].
  unfold uint32_mul, uint32. rewrite N.mod_small by lia.
  replace (N.to_nat (N.of_nat (length data) * 8)) with (8 * length data) by lia.
  rewrite HCB, drop_app_length' by done.
  rewrite fit_exact by apply length_bytesToBits.
  by rewrite bitsToBytes_bytesToBits.
Qed.

Lemma embed_extract_round_trip_witness :
  ∃ stego,
    Embed (uniformImage 8 5 x10 x20 x33) [x48] (fractalConfig "Julia" 50 2.0)
    = (Some stego, None)
    ∧ Extract stego (fractalConfig "Julia" 50 2.0) = (Some [x48], None).
Proof.
  apply (embed_extract_round_trip (uniformImage 8 5 x10 x20 x33) [x48] 0.5
           {| Type_ := "Julia"; Iterations := 50; Threshold := 2.0 |}).
  - reflexivity.
  - reflexivity.
  - discriminate.
  - reflexivity.
  - vm_compute. lia.
Defined.

(** C1 fails as stated: the empty payload fits the 32 carriers of an 8x4
    cover under the Julia mask and [Embed] succeeds, but [Extract] rejects
    the embedded image, whose header is zero, with [InvalidLength]. *)
Lemma embed_extract_empty_counterexample :
  32 + 8 * length (@nil byte)
  ≤ carrierCount (maskOf (uniformImage 8 4 x10 x20 x33)
                    {| Type_ := "Julia"; Iterations := 50; Threshold := 2.0 |})
  ∧ match Embed (uniformImage 8 4 x10 x20 x33) [] (fractalConfig "Julia" 50 2.0) with
    | (Some stego, None) =>
        Extract stego (fractalConfig "Julia" 50 2.0) = (None, Some InvalidLength)
    | _ => False
    end.
Proof. split; [vm_compute; lia | vm_compute; done]. Qed.

(** ** A run of the model *)

(** The first test case of the repository at a smaller size: a 32x32
    cover, the Mandelbrot mask with 100 iterations and threshold 2.0, and
    the 13 bytes of ["Hello, World!"]. *)
Example hello_world_round_trip :
  match Embed (uniformImage 32 32 x10 x20 x33)
          [x48; x65; x6c; x6c; x6f; x2c; x20; x57; x6f; x72; x6c; x64; x21]
          (fractalConfig "Mandelbrot" 100 2.0) with
  | (Some stego, None) =>
      Extract stego (fractalConfig "Mandelbrot" 100 2.0)
      = (Some [x48; x65; x6c; x6c; x6f; x2c; x20; x57; x6f; x72; x6c; x64; x21], None)
  | _ => False
  end.
Proof. vm_compute. reflexivity. Qed.

(* ================================================================== *)
(** * Further properties of the code *)

(** ** The handlers of the application *)

Lemma loadImage_result (w : main.World) (path : string) :
  (∃ img, main.loadImage w path = (Some img, None))
  ∨ ∃ err, main.loadImage w path = (None, Some err).
Proof.
  unfold main.loadImage.
  destruct (main.os_Open w path) as [file|err]; [|right; by exists err].
  destruct (main.image_Decode w file) as [img|err]; [left; by exists img|right; by exists err].
Qed.

(** The algorithm name that fills [config.FractalParams] is not a name
    that [Factory] knows, and the name that [Factory] knows leaves
    [config.FractalParams] nil. *)
Lemma buildConfig_Factory (rev : Revision) (w : main.World) (a : main.StegoApp) :
  (∃ msg, main.buildConfig w a = inr [main.ShowError msg])
  ∨ (∃ config msg, main.buildConfig w a = inl config
       ∧ Factory rev (main.algorithm a) = (None, Some msg))
  ∨ (main.buildConfig w a
       = inl {| EmbeddingRate := main.embeddingRate a; FractalParams_ := None |}
     ∧ Factory rev (main.algorithm a) = (Some (NewFractalStego rev), None)).
Proof.
  unfold main.buildConfig.
  destruct (String.eqb_spec (main.algorithm a) main.AlgorithmFractal) as [Heq|Hne].
  - rewrite Heq.
    destruct (main.strconv_Atoi w _) as [iterations|err]; [|left; by eexists].
    destruct (main.strconv_ParseFloat w _) as [threshold|err]; [|left; by eexists].
    right; left. by do 2 eexists.
  - unfold Factory.
    destruct (String.eqb (main.algorithm a) "Fractal").
    + right; right. done.
    + right; left. by do 2 eexists.
Qed.

(** X2: [embedData] never embeds. Whatever the widgets hold and whatever
    the file system, the decoders and [strconv] answer, and with either
    revision of the codec, the handler ends with one error dialog and
    writes no file: the name [AlgorithmFractal] that makes it fill the
    fractal parameters is refused by [Factory], and under the one name
    [Factory] accepts the parameters stay nil and [Embed] refuses. *)
Theorem embedData_never_embeds (rev : Revision) (w : main.World) (a : main.StegoApp) :
  ∃ msg, main.embedData rev w a = [main.ShowError msg].
Proof.
  unfold main.embedData.
  destruct (String.eqb (main.coverImagePath a) ""); [by eexists|].
  destruct (String.eqb (main.secretDataPath a) ""); [by eexists|].
  destruct (String.eqb (main.outputPath a) ""); [by eexists|].
  destruct (loadImage_result w (main.coverImagePath a)) as [[img ->]|[err ->]];
    [|by eexists].
  destruct (main.os_ReadFile w _) as [secretData|err]; [|by eexists].
  destruct (buildConfig_Factory rev w a) as [[msg ->]|[(config & msg & -> & ->)|[-> ->]]];
    by eexists.
Qed.

(** X3: [extractData] never extracts: with either revision of the codec
    it ends with one error dialog and writes no file, for the same
    reason. *)
Theorem extractData_never_extracts (rev : Revision) (w : main.World) (a : main.StegoApp) :
  ∃ msg, main.extractData rev w a = [main.ShowError msg].
Proof.
  unfold main.extractData.
  destruct (String.eqb (main.stegoImagePath a) ""); [by eexists|].
  destruct (String.eqb (main.outputPath a) ""); [by eexists|].
  destruct (loadImage_result w (main.stegoImagePath a)) as [[img ->]|[err ->]];
    [|by eexists].
  destruct (buildConfig_Factory rev w a) as [[msg ->]|[(config & msg & -> & ->)|[-> ->]]];
    by eexists.
Qed.

(** ** More of the embedder and the extractor *)

Lemma carrierPositions_lt (mask : list bool) (n i : nat) :
  i ∈ carrierPositions mask n → i < n.
Proof.
  unfold carrierPositions. rewrite list_elem_of_filter, elem_of_seq. lia.
Qed.

Lemma length_carrierBits (img : image.Image) (params : FractalParams) :
  length (carrierBits img (maskOf img params)) = carrierCount (maskOf img params).
Proof.
  unfold carrierBits. rewrite length_fmap.
  fold (rank (maskOf img params) (image.Dx img * image.Dy img)).
  rewrite <- (length_generateFractalPattern (image.Dx img) (image.Dy img) params).
  apply rank_carrierCount.
Qed.

Lemma withBlueLSB_idem (c : color.RGBA) (bit : byte) :
  withBlueLSB (withBlueLSB c bit) bit = withBlueLSB c bit.
Proof.
  unfold withBlueLSB. cbn [color.R color.G color.B color.A]. f_equal.
  apply uint8_facts.byte_ext. intros j _.
  rewrite !uint8_facts.testbit_or, !uint8_facts.testbit_and, uint8_facts.testbit_or,
    uint8_facts.testbit_and.
  destruct (uint8.testbit (color.B c) j), (uint8.testbit xfe j), (uint8.testbit bit j); done.
Qed.

(** X4: embedding is idempotent. Embedding a payload into the output of
    [Embed] for the same payload and parameters succeeds and gives the same
    image, pixel for pixel. *)
Theorem Embed_idempotent (cover : image.Image) (data : list byte)
    (rate : float) (params : FractalParams) (stego : image.Image) :
  let config := {| EmbeddingRate := rate; FractalParams_ := Some params |} in
  Embed cover data config = (Some stego, None) →
  ∃ stego',
    Embed stego data config = (Some stego', None)
    ∧ (image.MinX stego' = image.MinX stego ∧ image.MinY stego' = image.MinY stego)
    ∧ image.Dx stego' = image.Dx stego ∧ image.Dy stego' = image.Dy stego
    ∧ ∀ x y, image.At stego' x y = image.At stego x y.
Proof.
  intros config Hrun.
  destruct (Nat.ltb_spec (image.Dx cover * image.Dy cover) (32 + length data * 8))
    as [Hsmall|Hcap].
  { unfold Embed in Hrun. cbn [FractalParams_ config] in Hrun.
    apply Nat.ltb_lt in Hsmall. rewrite Hsmall in Hrun. discriminate Hrun. }
  destruct (Embed_spec cover data rate params Hcap)
    as (stego0 & Hrun0 & [Hmx Hmy] & Hw & Hh & Hat).
  fold config in Hrun0. rewrite Hrun in Hrun0. injection Hrun0 as <-.
  destruct (Embed_spec stego data rate params)
    as (stego' & Hrun' & Hmin' & Hw' & Hh' & Hat'); [by rewrite Hw, Hh|].
  exists stego'. split; [done|]. split; [done|]. split; [done|]. split; [done|].
  intros x y. rewrite Hat'.
  assert (maskOf stego params = maskOf cover params) as ->
    by (unfold maskOf; by rewrite Hw, Hh).
  unfold embedPixel at 1.
  unfold consumed, scanned, indexOf, image.NewRGBA_Draw, image.In.
  cbn [image.At image.Dx image.Dy image.MinX image.MinY].
  rewrite Hmx, Hmy, Hw, Hh, !Hat.
  unfold embedPixel, consumed, scanned, indexOf, image.NewRGBA_Draw, image.In.
  cbn [image.At image.Dx image.Dy image.MinX image.MinY].
  destruct ((image.MinX cover <=? x) && (x <? image.MinX cover + Z.of_nat (image.Dx cover))
            && (image.MinY cover <=? y)
            && (y <? image.MinY cover + Z.of_nat (image.Dy cover)))%Z;
    cbn [andb]; [|done].
  destruct (_ && _ && _ && _); [|done].
  apply withBlueLSB_idem.
Qed.

Lemma Embed_idempotent_witness :
  ∃ stego stego',
    Embed (uniformImage 8 5 x10 x20 x33) [x48] (fractalConfig "Julia" 50 2.0)
    = (Some stego, None)
    ∧ Embed stego [x48] (fractalConfig "Julia" 50 2.0) = (Some stego', None)
    ∧ image.At stego' 3 2 = image.At stego 3 2.
Proof.
  destruct (Embed_spec (uniformImage 8 5 x10 x20 x33) [x48] 0.5
              {| Type_ := "Julia"; Iterations := 50; Threshold := 2.0 |})
    as (stego & Hrun & _); [simpl; lia|].
  destruct (Embed_idempotent _ _ _ _ _ Hrun) as (stego' & Hrun' & _ & _ & _ & Hat).
  exists stego, stego'. split; [exact Hrun|]. split; [exact Hrun'|]. apply Hat.
Defined.

(** X5: [Extract] reads nothing but blue least-significant bits. Two
    images of the same size whose colours at the points [(x, y)],
    [0 <= x < width], [0 <= y < height], agree on the least-significant
    bit of blue give the same result, whatever their other bits and
    channels and wherever their bounds start, under every configuration. *)
Theorem Extract_reads_blue_lsb (stego stego' : image.Image) (config : Config) :
  image.Dx stego = image.Dx stego' →
  image.Dy stego = image.Dy stego' →
  (∀ x y, x < image.Dx stego → y < image.Dy stego →
     uint8.and (color.B (image.At stego (Z.of_nat x) (Z.of_nat y))) x01
     = uint8.and (color.B (image.At stego' (Z.of_nat x) (Z.of_nat y))) x01) →
  Extract stego config = Extract stego' config.
Proof.
  intros Hw Hh Hlsb. destruct config as [rate [params|]]; [|done].
  assert (maskOf stego params = maskOf stego' params) as Hmask
    by (unfold maskOf; by rewrite Hw, Hh).
  assert (carrierBits stego (maskOf stego params)
          = carrierBits stego' (maskOf stego' params)) as HCB.
  { rewrite <- Hmask. unfold carrierBits. rewrite <- Hw, <- Hh.
    apply list_fmap_ext. intros k i Hi.
    apply list_elem_of_lookup_2, carrierPositions_lt in Hi.
    unfold pixelLSB, pixelAt. rewrite <- Hw.
    rewrite (Nat.mul_comm (image.Dx stego)) in Hi.
    destruct (index_coords _ _ _ Hi) as (Hx & Hy & _).
    by apply Hlsb. }
  rewrite !Extract_spec. unfold decodedLength.
  by rewrite HCB, Hw, Hh.
Qed.

Lemma Extract_reads_blue_lsb_witness :
  Extract shortImage (fractalConfig "Julia" 50 2.0)
  = Extract
      {| image.MinX := 0; image.MinY := 0; image.Dx := 8; image.Dy := 5;
         image.At := λ x y,
           {| color.R := x00; color.G := xff;
              color.B := if ((y * 8 + x =? 30) || (32 <=? y * 8 + x))%Z
                         then x01 else x00;
              color.A := x00 |} |}
      (fractalConfig "Julia" 50 2.0).
Proof.
  apply Extract_reads_blue_lsb; [reflexivity..|].
  intros x y Hx Hy. cbn [image.At shortImage color.B].
  by destruct (_ || _).
Defined.

(** X6: the size of what [Extract] returns. When [Extract] succeeds the
    decoded length [len] is non-zero and at most [uint32(width*height)],
    and the result holds [ceil(n/8)] bytes for [n = len*8] computed in
    [uint32]; for a length below 2^29 that is exactly [len] bytes. *)
Theorem Extract_length (stego : image.Image) (rate : float)
    (params : FractalParams) (data : list byte) :
  let len := decodedLength stego (maskOf stego params) in
  Extract stego {| EmbeddingRate := rate; FractalParams_ := Some params |}
  = (Some data, None) →
  (0 < len ≤ uint32 (N.of_nat (image.Dx stego * image.Dy stego)))%N
  ∧ length data = (N.to_nat (uint32_mul len 8) + 7) / 8
  ∧ ((len < 2 ^ 29)%N → length data = N.to_nat len).
Proof.
  intros len. rewrite Extract_spec. fold len.
  destruct (N.eqb_spec len 0) as [?|Hz]; cbn [orb]; [done|].
  destruct (N.ltb_spec (uint32 (N.of_nat (image.Dx stego * image.Dy stego))) len)
    as [?|Hle]; [done|].
  intros [= <-]. split; [lia|].
  rewrite length_bitsToBytes, length_fit. split; [done|].
  intros Hlt. unfold uint32_mul, uint32. rewrite N.mod_small by lia.
  replace (N.to_nat (len * 8)) with (N.to_nat len * 8) by lia.
  symmetry. apply Nat.div_unique with 7; lia.
Qed.

Lemma Extract_length_witness :
  (0 < decodedLength shortImage
         (maskOf shortImage {| Type_ := "Julia"; Iterations := 50; Threshold := 2.0 |})
   ≤ uint32 (N.of_nat (image.Dx shortImage * image.Dy shortImage)))%N
  ∧ length [xff; x00]
    = (N.to_nat (uint32_mul
                   (decodedLength shortImage
                      (maskOf shortImage
                         {| Type_ := "Julia"; Iterations := 50; Threshold := 2.0 |})) 8)
       + 7) / 8
  ∧ ((decodedLength shortImage
        (maskOf shortImage {| Type_ := "Julia"; Iterations := 50; Threshold := 2.0 |})
      < 2 ^ 29)%N → length [xff; x00] = N.to_nat
          (decodedLength shortImage
             (maskOf shortImage {| Type_ := "Julia"; Iterations := 50; Threshold := 2.0 |}))).
Proof.
  apply (Extract_length shortImage 0.5
           {| Type_ := "Julia"; Iterations := 50; Threshold := 2.0 |} [xff; x00]).
  vm_compute. reflexivity.
Defined.

(** The carrier bits of the output of [Embed], for a cover whose bounds
    start at the origin. *)
Lemma Embed_carrierBits (cover : image.Image) (data : list byte)
    (rate : float) (params : FractalParams) (stego : image.Image) :
  image.MinX cover = 0%Z → image.MinY cover = 0%Z →
  Embed cover data {| EmbeddingRate := rate; FractalParams_ := Some params |}
  = (Some stego, None) →
  32 + 8 * length data ≤ image.Dx cover * image.Dy cover
  ∧ image.Dx stego = image.Dx cover ∧ image.Dy stego = image.Dy cover
  ∧ carrierBits stego (maskOf cover params)
    = take (carrierCount (maskOf cover params)) (envelope data)
      ++ drop (length (envelope data)) (carrierBits cover (maskOf cover params)).
Proof.
  intros Hmx Hmy Hrun.
  destruct (Nat.ltb_spec (image.Dx cover * image.Dy cover) (32 + length data * 8))
    as [Hsmall|Hcap].
  { unfold Embed in Hrun. cbn [FractalParams_] in Hrun.
    apply Nat.ltb_lt in Hsmall. rewrite Hsmall in Hrun. discriminate Hrun. }
  destruct (Embed_spec cover data rate params Hcap) as (stego0 & Hrun0 & _ & Hw & Hh & Hat).
  rewrite Hrun in Hrun0. injection Hrun0 as <-.
  split; [lia|]. split; [done|]. split; [done|].
  apply carrierBits_embedded; try done.
  - apply length_generateFractalPattern.
  - apply envelope_bits.
Qed.

Lemma bigEndianValue_header (v : N) :
  bigEndianValue (bytesToBits (BigEndian.PutUint32 v)) = uint32 v.
Proof.
  rewrite <- Uint32_bitsToBytes by (by rewrite length_bytesToBits).
  by rewrite bitsToBytes_bytesToBits, Uint32_PutUint32.
Qed.

(** X7: the wire format. When [Embed] succeeds on a cover whose bounds
    start at [(0,0)] and the carriers suffice, the blue least-significant
    bits at the carrier positions of the output, in row-major order, are:
    32 bits whose big-endian value is [uint32(len data)], then the payload
    bits, most-significant bit of each byte first, then the cover's own
    bits, untouched. *)
Theorem Embed_wire_format (cover : image.Image) (data : list byte)
    (rate : float) (params : FractalParams) (stego : image.Image) :
  let mask := maskOf cover params in
  let bits := carrierBits stego mask in
  image.MinX cover = 0%Z → image.MinY cover = 0%Z →
  Embed cover data {| EmbeddingRate := rate; FractalParams_ := Some params |}
  = (Some stego, None) →
  32 + 8 * length data ≤ carrierCount mask →
  bigEndianValue (take 32 bits) = uint32 (N.of_nat (length data))
  ∧ take (8 * length data) (drop 32 bits) = bytesToBits data
  ∧ drop (32 + 8 * length data) bits
    = drop (32 + 8 * length data) (carrierBits cover mask).
Proof.
  intros mask bits Hmx Hmy Hrun Hfit. subst bits mask.
  destruct (Embed_carrierBits cover data rate params stego Hmx Hmy Hrun) as (_ & _ & _ & ->).
  rewrite (take_ge (envelope data)) by (rewrite length_envelope; lia).
  rewrite length_envelope. unfold envelope.
  set (hdr := bytesToBits (BigEndian.PutUint32 (uint32 (N.of_nat (length data))))).
  assert (length hdr = 32) as Hhdr by (unfold hdr; by rewrite length_bytesToBits).
  rewrite <- !app_assoc. split; [|split].
  - rewrite take_app_length' by done. unfold hdr.
    rewrite bigEndianValue_header. unfold uint32. by rewrite N.Div0.mod_mod.
  - rewrite drop_app_length' by done.
    rewrite take_app_length' by (by rewrite length_bytesToBits). done.
  - rewrite app_assoc, drop_app_length'; [done|].
    rewrite length_app, Hhdr, length_bytesToBits. done.
Qed.

Lemma Embed_wire_format_witness :
  ∃ stego,
    Embed (uniformImage 8 5 x10 x20 x33) [x48] (fractalConfig "Julia" 50 2.0)
    = (Some stego, None)
    ∧ take (8 * 1)
        (drop 32 (carrierBits stego
                    (maskOf (uniformImage 8 5 x10 x20 x33)
                       {| Type_ := "Julia"; Iterations := 50; Threshold := 2.0 |})))
      = bytesToBits [x48].
Proof.
  destruct (Embed_spec (uniformImage 8 5 x10 x20 x33) [x48] 0.5
              {| Type_ := "Julia"; Iterations := 50; Threshold := 2.0 |})
    as (stego & Hrun & _); [simpl; lia|].
  exists stego. split; [exact Hrun|].
  refine (proj1 (proj2 (Embed_wire_format (uniformImage 8 5 x10 x20 x33) _ _ _ _
                          eq_refl eq_refl Hrun _))).
  vm_compute. lia.
Defined.

(** A byte of a packed bit sequence, from its eight bits. *)
Lemma lookup_bytes_bits (bs : list byte) (k : nat) (b : byte) :
  k < length bs →
  (∀ j, j < 8 → bitAt bs (k * 8 + j) = uint8.testbit b (7 - j)) →
  bs !! k = Some b.
Proof.
  intros Hk Hbits. destruct (lookup_lt_is_Some_2 bs k Hk) as [b' Hb'].
  rewrite Hb'. f_equal. apply uint8_facts.byte_ext. intros j Hj.
  specialize (Hbits (7 - j)). rewrite bitAt_byte in Hbits by lia.
  rewrite (list_lookup_total_correct bs k b' Hb') in Hbits.
  replace (7 - (7 - j)) with j in Hbits by lia. apply Hbits. lia.
Qed.

(** X8: silent truncation. When the capacity check of [Embed] passes but
    the mask has only [c] carriers, with [32 <= c < 32 + 8 * len data],
    extraction returns, without error, as many bytes as the payload has:
    the first [(c - 32) / 8] bytes are the payload's, and every byte after
    the one the carriers end in is zero. (Cover whose bounds start at
    [(0,0)], of fewer than 2^32 pixels; non-empty payload.) *)
Theorem embed_extract_truncated (cover : image.Image) (data : list byte)
    (rate : float) (params : FractalParams) :
  let config := {| EmbeddingRate := rate; FractalParams_ := Some params |} in
  let c := carrierCount (maskOf cover params) in
  image.MinX cover = 0%Z → image.MinY cover = 0%Z →
  data ≠ [] →
  (N.of_nat (image.Dx cover * image.Dy cover) < 2 ^ 32)%N →
  32 + 8 * length data ≤ image.Dx cover * image.Dy cover →
  32 ≤ c < 32 + 8 * length data →
  ∃ stego out,
    Embed cover data config = (Some stego, None)
    ∧ Extract stego config = (Some out, None)
    ∧ length out = length data
    ∧ take ((c - 32) / 8) out = take ((c - 32) / 8) data
    ∧ ∀ k, (c - 32) / 8 < k → k < length data → out !! k = Some x00.
Proof.
  intros config c Hmx Hmy Hne Hsize Hcap [Hc32 Hshort].
  destruct (Embed_spec cover data rate params) as (stego & Hrun & _); [lia|].
  fold config in Hrun.
  destruct (Embed_carrierBits cover data rate params stego Hmx Hmy Hrun)
    as (_ & Hw & Hh & HCB).
  set (mask := maskOf cover params) in *. fold c in HCB.
  assert (maskOf stego params = mask) as Hmask
    by (unfold maskOf, mask; by rewrite Hw, Hh).
  rewrite drop_ge in HCB
    by (unfold mask; rewrite length_carrierBits, length_envelope; fold mask c; lia).
  rewrite app_nil_r in HCB. unfold envelope in HCB.
  set (hdr := bytesToBits (BigEndian.PutUint32 (uint32 (N.of_nat (length data))))) in *.
  assert (length hdr = 32) as Hhdr by (unfold hdr; by rewrite length_bytesToBits).
  rewrite take_app, (take_ge hdr), Hhdr in HCB by lia.
  set (m := c - 32) in *.
  assert (length data ≠ 0) as Hne' by (by destruct data).
  assert (decodedLength stego mask = N.of_nat (length data)) as Hdec.
  { unfold decodedLength. rewrite HCB, fit_exact by done. unfold hdr.
    rewrite bigEndianValue_header. unfold uint32.
    rewrite N.Div0.mod_mod. apply N.mod_small. lia. }
  set (out := bitsToBytes (fit (8 * length data) (take m (bytesToBits data)))).
  assert (Extract stego config = (Some out, None)) as Hext.
  { unfold config. rewrite Extract_spec, Hmask, Hdec, Hw, Hh.
    destruct (N.eqb_spec (N.of_nat (length data)) 0) as [?|_]; [lia|]. cbn [orb].
    unfold uint32 at 1. rewrite N.mod_small by done.
    destruct (N.ltb_spec (N.of_nat (image.Dx cover * image.Dy cover))
                (N.of_nat (length data))) as [?|_]; [lia|].
    unfold uint32_mul, uint32. rewrite N.mod_small by lia.
    replace (N.to_nat (N.of_nat (length data) * 8)) with (8 * length data) by lia.
    rewrite HCB, drop_app_length' by done. done. }
  assert (length out = length data) as Hlen.
  { unfold out. rewrite length_bitsToBytes, length_fit.
    symmetry. apply Nat.div_unique with 7; lia. }
  assert (∀ i, bitAt out i
               = bool_decide (i < m ∧ bytesToBits data !! i = Some x01)) as Hbit.
  { intros i. unfold out. rewrite bitAt_bitsToBytes.
    apply bool_decide_ext. rewrite lookup_fit_one. split.
    - intros [Hi Hlk]. apply lookup_take_Some in Hlk. tauto.
    - intros [Hi Hlk]. split; [lia|]. by rewrite lookup_take_lt. }
  pose proof (Nat.Div0.div_mod m 8) as Hm8.
  pose proof (Nat.mod_upper_bound m 8) as Hm8'.
  exists stego, out. split; [done|]. split; [done|]. split; [done|]. split.
  - apply list_eq. intros k. destruct (decide (k < m / 8)) as [Hk|Hk].
    + rewrite !lookup_take_lt by done.
      assert (k < length data) as Hkd by lia.
      destruct (lookup_lt_is_Some_2 data k Hkd) as [b Hb]. rewrite Hb.
      apply lookup_bytes_bits; [lia|]. intros j Hj. rewrite Hbit.
      rewrite lookup_bytesToBits by lia.
      rewrite bitOf_spec, bitAt_byte, (list_lookup_total_correct data k b Hb) by done.
      destruct (uint8.testbit b (7 - j)).
      * apply bool_decide_eq_true_2. split; [lia|done].
      * apply bool_decide_eq_false_2. intros [_ [=]].
    + by rewrite !lookup_take_ge by lia.
  - intros k Hk Hkd. apply lookup_bytes_bits; [lia|]. intros j Hj.
    rewrite Hbit, uint8_facts.testbit_x00.
    apply bool_decide_eq_false_2. intros [Hi _]. lia.
Qed.

Lemma embed_extract_truncated_witness :
  ∃ stego out,
    Embed (uniformImage 24 24 x10 x20 x33)
      [x48; x65; x6c; x6c; x6f; x2c; x20; x57; x6f; x72; x6c; x64; x21]
      (fractalConfig "Mandelbrot" 100 2.0)
    = (Some stego, None)
    ∧ Extract stego (fractalConfig "Mandelbrot" 100 2.0) = (Some out, None)
    ∧ length out = 13.
Proof.
  destruct (embed_extract_truncated (uniformImage 24 24 x10 x20 x33)
              [x48; x65; x6c; x6c; x6f; x2c; x20; x57; x6f; x72; x6c; x64; x21] 0.5
              {| Type_ := "Mandelbrot"; Iterations := 100; Threshold := 2.0 |})
    as (stego & out & Hrun & Hext & Hlen & _).
  - reflexivity.
  - reflexivity.
  - discriminate.
  - reflexivity.
  - vm_compute. lia.
  - vm_compute. lia.
  - exists stego, out. split; [exact Hrun|]. split; [exact Hext|exact Hlen].
Defined.

(** ** More of the pattern generator *)

(** X9: the layout of the mask. The mask has one entry per pixel, and the
    entry at [y*width + x] is the escape test of the pixel at column [x],
    row [y]. *)
Theorem generateFractalPattern_layout (width height : nat) (params : FractalParams) :
  length (generateFractalPattern width height params) = width * height
  ∧ ∀ x y, x < width → y < height →
      generateFractalPattern width height params !! (y * width + x)
      = Some (fractalPixel width height params x y).
Proof.
  split; [apply length_generateFractalPattern|].
  intros x y Hx Hy. rewrite generateFractalPattern_flat, list_lookup_fmap.
  rewrite lookup_seq_lt by nia. cbn [fmap option_fmap option_map Nat.add].
  destruct (coords_index width x y Hx) as [-> ->]. done.
Qed.

(** X10: negative iterations. With [Iterations < 0] the loop does not run
    and [iter == params.Iterations] compares 0 with a negative number: no
    pixel is a carrier. *)
Theorem mask_negative_iterations (width height : nat) (t : string) (n : Z) (thr : float) :
  (n < 0)%Z →
  generateFractalPattern width height
    {| Type_ := t; Iterations := n; Threshold := thr |}
  = replicate (width * height) false.
Proof.
  intros Hn. apply generateFractalPattern_const. intros x y.
  unfold fractalPixel. cbn [Iterations].
  replace (Z.to_nat n) with 0 by lia. cbn [escape].
  apply Z.eqb_neq. lia.
Qed.

Lemma mask_negative_iterations_witness :
  generateFractalPattern 3 2
    {| Type_ := "Mandelbrot"; Iterations := -5; Threshold := 2.0 |}
  = replicate (3 * 2) false.
Proof. apply (mask_negative_iterations 3 2 "Mandelbrot" (-5) 2.0). lia. Defined.

(** One more iteration can only make a surviving pixel escape. *)
Lemma escape_one_more (t : string) (n : Z) (thr : float) (c : complex128.t)
    (fuel : nat) (iter : Z) (z : complex128.t) :
  Z.of_nat fuel = (n - iter)%Z →
  escape {| Type_ := t; Iterations := n + 1; Threshold := thr |} c (S fuel) iter z
  = (n + 1)%Z →
  escape {| Type_ := t; Iterations := n; Threshold := thr |} c fuel iter z = n.
Proof.
  revert iter z. induction fuel as [|fuel IH]; intros iter z Hfuel.
  - intros _. cbn [escape]. lia.
  - cbn [escape Iterations Type_ Threshold] in *.
    destruct (Z.ltb_spec iter (n + 1)); [|lia].
    destruct (Z.ltb_spec iter n); [|lia].
    destruct (PrimFloat.ltb thr _); [lia|].
    intros Hrun. apply IH; [lia|].
    destruct (Z.ltb_spec (iter + 1) (n + 1)); [|lia]. exact Hrun.
Qed.

Lemma fractalPixel_antitone (width height : nat) (t : string) (n : Z) (thr : float)
    (d x y : nat) :
  (0 ≤ n)%Z →
  fractalPixel width height
    {| Type_ := t; Iterations := n + Z.of_nat d; Threshold := thr |} x y = true →
  fractalPixel width height
    {| Type_ := t; Iterations := n; Threshold := thr |} x y = true.
Proof.
  intros Hn. induction d as [|d IH].
  - by rewrite Z.add_0_r.
  - intros Hd. apply IH. clear IH. revert Hd.
    replace (n + Z.of_nat (S d))%Z with (n + Z.of_nat d + 1)%Z by lia.
    unfold fractalPixel. cbn [Iterations].
    replace (Z.to_nat (n + Z.of_nat d + 1)) with (S (Z.to_nat (n + Z.of_nat d))) by lia.
    intros Hd. apply Z.eqb_eq in Hd. apply Z.eqb_eq.
    apply escape_one_more; [lia|exact Hd].
Qed.

Lemma carrierCount_mono (m1 m2 : list bool) :
  length m1 = length m2 →
  (∀ i, m1 !! i = Some true → m2 !! i = Some true) →
  carrierCount m1 ≤ carrierCount m2.
Proof.
  intros Hlen Hsub. rewrite <- !rank_carrierCount, <- Hlen.
  enough (∀ k, rank m1 k ≤ rank m2 k) as H by apply H.
  induction k as [|k IH]; [done|].
  rewrite !rank_S. destruct (decide (m1 !! k = Some true)) as [H1|H1].
  - rewrite !bool_decide_eq_true_2 by auto. lia.
  - rewrite (bool_decide_eq_false_2 _ H1). case_bool_decide; lia.
Qed.

(** X11: more iterations, fewer carriers. For [0 <= n <= m], every carrier
    position of the mask computed with [m] iterations is a carrier
    position of the mask computed with [n] iterations: raising
    [Iterations] never adds capacity. *)
Theorem mask_antitone_iterations (width height : nat) (t : string) (n m : Z) (thr : float) :
  let mask k := generateFractalPattern width height
                  {| Type_ := t; Iterations := k; Threshold := thr |} in
  (0 ≤ n ≤ m)%Z →
  (∀ i, mask m !! i = Some true → mask n !! i = Some true)
  ∧ carrierCount (mask m) ≤ carrierCount (mask n).
Proof.
  intros mask [Hn Hm].
  assert (∀ i, mask m !! i = Some true → mask n !! i = Some true) as Hsub.
  { intros i. unfold mask. rewrite !generateFractalPattern_flat, !list_lookup_fmap.
    destruct (seq 0 (width * height) !! i) as [k|]; [|done].
    cbn [fmap option_fmap option_map]. intros [= Hk]. f_equal.
    apply (fractalPixel_antitone width height t n thr (Z.to_nat (m - n))); [done|].
    replace (n + Z.of_nat (Z.to_nat (m - n)))%Z with m by lia. exact Hk. }
  split; [exact Hsub|].
  apply carrierCount_mono; [|exact Hsub].
  unfold mask. by rewrite !length_generateFractalPattern.
Qed.

Lemma mask_antitone_iterations_witness :
  carrierCount (generateFractalPattern 8 6
                  {| Type_ := "Mandelbrot"; Iterations := 20; Threshold := 2.0 |})
  ≤ carrierCount (generateFractalPattern 8 6
                    {| Type_ := "Mandelbrot"; Iterations := 3; Threshold := 2.0 |}).
Proof.
  refine (proj2 (mask_antitone_iterations 8 6 "Mandelbrot" 3 20 2.0 _)). lia.
Defined.

(** No float is greater than NaN or than +Inf. *)
Lemma ltb_nan_inf (thr x : float) :
  thr = nan ∨ thr = infinity → PrimFloat.ltb thr x = false.
Proof.
  intros [-> | ->]; rewrite FloatAxioms.ltb_spec; unfold SpecFloat.SFltb.
  - reflexivity.
  - change (FloatOps.Prim2SF infinity) with (SpecFloat.S754_infinity false).
    destruct (FloatOps.Prim2SF x) as [s|[]| |s mx e]; reflexivity.
Qed.

Lemma escape_never (p : FractalParams) (c : complex128.t)
    (fuel : nat) (iter : Z) (z : complex128.t) :
  (∀ x, PrimFloat.ltb (Threshold p) x = false) →
  Z.of_nat fuel = (Iterations p - iter)%Z →
  escape p c fuel iter z = Iterations p.
Proof.
  intros Hthr. revert iter z. induction fuel as [|fuel IH]; intros iter z Hfuel.
  - cbn [escape]. lia.
  - cbn [escape]. destruct (Z.ltb_spec iter (Iterations p)); [|lia].
    rewrite Hthr. apply IH. lia.
Qed.

(** X12: a threshold nothing exceeds. With [Threshold] NaN or +Inf (both
    are values of [float64]) the test [cmplx.Abs(z) > params.Threshold]
    never holds, so for [Iterations >= 0] every pixel is a carrier, for
    both variants. *)
Theorem mask_threshold_nan_inf (width height : nat) (t : string) (n : Z) (thr : float) :
  thr = nan ∨ thr = infinity →
  (0 ≤ n)%Z →
  generateFractalPattern width height
    {| Type_ := t; Iterations := n; Threshold := thr |}
  = replicate (width * height) true.
Proof.
  intros Hthr Hn. apply generateFractalPattern_const. intros x y.
  unfold fractalPixel. apply Z.eqb_eq. apply escape_never.
  - intros v. cbn [Threshold]. by apply ltb_nan_inf.
  - cbn [Iterations]. lia.
Qed.

Lemma mask_threshold_nan_inf_witness :
  generateFractalPattern 4 3
    {| Type_ := "Mandelbrot"; Iterations := 100; Threshold := nan |}
  = replicate (4 * 3) true.
Proof.
  apply (mask_threshold_nan_inf 4 3 "Mandelbrot" 100 nan); [left; reflexivity|lia].
Defined.

(** ** A mask without carriers *)

Lemma carrierCount_zero (mask : list bool) (i : nat) :
  carrierCount mask = 0 → mask !! i ≠ Some true.
Proof.
  unfold carrierCount. intros Hz Hi. apply nil_length_inv in Hz.
  assert (true ∈ filter (λ b : bool, b = true) mask) as Hin.
  { apply list_elem_of_filter. split; [done|]. by apply list_elem_of_lookup_2 with i. }
  rewrite Hz in Hin. by apply not_elem_of_nil in Hin.
Qed.

(** X13: a mask without carriers. When the mask marks no pixel (as for a
    negative [Iterations]), [Extract] fails with [InvalidLength] on every
    image, and [Embed], where its capacity check passes, reports success
    and returns the cover's pixels unchanged at every point of its bounds,
    wherever they start: nothing is embedded. *)
Theorem no_carriers (img : image.Image) (rate : float) (params : FractalParams) :
  let config := {| EmbeddingRate := rate; FractalParams_ := Some params |} in
  carrierCount (maskOf img params) = 0 →
  Extract img config = (None, Some InvalidLength)
  ∧ ∀ data, 32 + 8 * length data ≤ image.Dx img * image.Dy img →
      ∃ stego,
        Embed img data config = (Some stego, None)
        ∧ ∀ x y, image.In x y img = true →
            image.At stego x y = image.At img x y.
Proof.
  intros config Hz. split.
  - unfold config. rewrite Extract_spec.
    assert (carrierBits img (maskOf img params) = []) as Hnil
      by (apply nil_length_inv; by rewrite length_carrierBits).
    unfold decodedLength. rewrite Hnil.
    change (bigEndianValue (fit 32 [])) with 0%N. done.
  - intros data Hcap.
    destruct (Embed_spec img data rate params) as (stego & Hrun & _ & _ & _ & Hat); [lia|].
    exists stego. split; [done|]. intros x y Hin.
    rewrite Hat. unfold embedPixel, consumed.
    rewrite (bool_decide_eq_false_2 _ (carrierCount_zero _ _ Hz)).
    rewrite andb_false_r. cbn [andb]. by apply At_NewRGBA_Draw.
Qed.

Lemma no_carriers_witness :
  Extract (uniformImage 8 5 x10 x20 x33) (fractalConfig "Mandelbrot" (-1) 2.0)
  = (None, Some InvalidLength).
Proof.
  refine (proj1 (no_carriers (uniformImage 8 5 x10 x20 x33) 0.5
                   {| Type_ := "Mandelbrot"; Iterations := -1; Threshold := 2.0 |} _)).
  vm_compute. reflexivity.
Defined.

(** ** Covers whose bounds do not start at the origin *)

Lemma bigEndianValue_zeros (bits : list byte) :
  Forall (λ b, b = x00) bits → bigEndianValue bits = 0%N.
Proof.
  unfold bigEndianValue. induction 1 as [|b bits -> _ IH]; [done|]. exact IH.
Qed.

Lemma fit_zeros (n : nat) (bits : list byte) :
  Forall (λ b, b = x00) bits → Forall (λ b, b = x00) (fit n bits).
Proof.
  intros H. unfold fit. apply Forall_app. split.
  - by apply Forall_take.
  - apply Forall_replicate. done.
Qed.

(** X17: a cover whose bounds lie off the scanned area. The scans of
    [Embed] and [Extract] count [x] and [y] from 0 and not from
    [Bounds().Min]. When the bounds of the cover do not meet the rectangle
    [0 <= x < width], [0 <= y < height] (a sub-image taken at an offset of
    at least its size, say), [Embed], where its capacity check passes,
    reports success and returns the cover's pixels unchanged, whatever the
    mask, and [Extract] on that output fails with [InvalidLength]: the
    payload is lost. *)
Theorem Embed_off_scan (cover : image.Image) (data : list byte)
    (rate : float) (params : FractalParams) :
  let config := {| EmbeddingRate := rate; FractalParams_ := Some params |} in
  (Z.of_nat (image.Dx cover) ≤ image.MinX cover
   ∨ Z.of_nat (image.Dy cover) ≤ image.MinY cover
   ∨ image.MinX cover + Z.of_nat (image.Dx cover) ≤ 0
   ∨ image.MinY cover + Z.of_nat (image.Dy cover) ≤ 0)%Z →
  32 + 8 * length data ≤ image.Dx cover * image.Dy cover →
  ∃ stego,
    Embed cover data config = (Some stego, None)
    ∧ (∀ x y, image.In x y cover = true → image.At stego x y = image.At cover x y)
    ∧ Extract stego config = (None, Some InvalidLength).
Proof.
  intros config Hoff Hcap.
  destruct (Embed_spec cover data rate params) as (stego & Hrun & _ & Hw & Hh & Hat); [lia|].
  exists stego. split; [done|].
  assert (∀ x y, image.In x y cover && scanned cover x y = false) as Hmiss.
  { intros x y. unfold image.In, scanned.
    destruct (Z.leb_spec (image.MinX cover) x), (Z.leb_spec 0 x),
      (Z.ltb_spec x (image.MinX cover + Z.of_nat (image.Dx cover))),
      (Z.ltb_spec x (Z.of_nat (image.Dx cover))),
      (Z.leb_spec (image.MinY cover) y), (Z.leb_spec 0 y),
      (Z.ltb_spec y (image.MinY cover + Z.of_nat (image.Dy cover))),
      (Z.ltb_spec y (Z.of_nat (image.Dy cover))); cbn [andb]; try done; lia. }
  assert (∀ x y, image.At stego x y = image.At (image.NewRGBA_Draw cover) x y) as Hat'.
  { intros x y. rewrite Hat. unfold embedPixel, consumed. by rewrite Hmiss. }
  split.
  - intros x y Hin. rewrite Hat'. by apply At_NewRGBA_Draw.
  - unfold config. rewrite Extract_spec.
    assert (decodedLength stego (maskOf stego params) = 0%N) as ->; [|done].
    unfold decodedLength. apply bigEndianValue_zeros, fit_zeros.
    unfold carrierBits. apply Forall_fmap, Forall_forall. intros i Hi.
    apply carrierPositions_lt in Hi. rewrite Hw, Hh in Hi.
    rewrite (Nat.mul_comm (image.Dx cover)) in Hi.
    destruct (index_coords _ _ _ Hi) as (Hx & Hy & _).
    unfold compose, pixelLSB, pixelAt. rewrite Hw, Hat'.
    unfold image.NewRGBA_Draw. cbn [image.At].
    pose proof (Hmiss (Z.of_nat (i `mod` image.Dx cover))
                  (Z.of_nat (i / image.Dx cover))) as Hm.
    rewrite scanned_of_nat, andb_true_r in Hm by done.
    by rewrite Hm.
Qed.

Lemma Embed_off_scan_witness :
  ∃ stego,
    Embed (offsetImage 8 0 8 5 x10 x20 x33) [x48] (fractalConfig "Julia" 50 2.0)
    = (Some stego, None)
    ∧ (∀ x y, image.In x y (offsetImage 8 0 8 5 x10 x20 x33) = true →
         image.At stego x y = image.At (offsetImage 8 0 8 5 x10 x20 x33) x y)
    ∧ Extract stego (fractalConfig "Julia" 50 2.0) = (None, Some InvalidLength).
Proof.
  apply (Embed_off_scan (offsetImage 8 0 8 5 x10 x20 x33) [x48] 0.5
           {| Type_ := "Julia"; Iterations := 50; Threshold := 2.0 |}).
  - left. simpl. lia.
  - simpl. lia.
Defined.

(** A cover with bounds [(2,3)-(10,8)] and room for the payload in every
    other respect: the scan writes only where it meets the bounds, and the
    byte [0x48] comes back as [0x08]. *)
Example offset_cover_round_trip :
  32 + 8 * length [x48]
  ≤ carrierCount (maskOf (offsetImage 2 3 8 5 x10 x20 x33)
                    {| Type_ := "Julia"; Iterations := 50; Threshold := 2.0 |})
  ∧ match Embed (offsetImage 2 3 8 5 x10 x20 x33) [x48]
            (fractalConfig "Julia" 50 2.0) with
    | (Some stego, None) =>
        Extract stego (fractalConfig "Julia" 50 2.0) = (Some [x08], None)
    | _ => False
    end.
Proof. split; [vm_compute; lia | vm_compute; done]. Qed.

(** ** More of the bit codec *)

Lemma lookup_fit (n : nat) (bits : list byte) (k : nat) :
  k < n → fit n bits !! k = Some (default x00 (bits !! k)).
Proof.
  intros Hk. unfold fit. destruct (decide (k < length bits)) as [Hl|Hl].
  - rewrite lookup_app_l by (rewrite length_take; lia).
    rewrite lookup_take_lt by done.
    destruct (lookup_lt_is_Some_2 bits k Hl) as [b ->]. done.
  - rewrite lookup_app_r by (rewrite length_take; lia).
    rewrite length_take, lookup_replicate_2 by lia.
    by rewrite lookup_ge_None_2 by lia.
Qed.

(** X14: packing, then expanding. [bitsToBytes] takes the byte 1 for a one
    and every other byte for a zero, and pads to a whole byte: expanding
    its result gives the input with each entry replaced by 1 or 0
    accordingly, followed by zeros up to a multiple of 8. For an input of
    zeros and ones whose length is a multiple of 8 that is the input
    itself. *)
Theorem bytesToBits_bitsToBytes (bits : list byte) :
  bytesToBits (bitsToBytes bits)
  = fit (8 * ((length bits + 7) / 8))
      ((λ b, if Byte.eqb b x01 then x01 else x00) <$> bits)
  ∧ (Forall (λ b, b = x00 ∨ b = x01) bits → length bits `mod` 8 = 0 →
     bytesToBits (bitsToBytes bits) = bits).
Proof.
  assert (bytesToBits (bitsToBytes bits)
          = fit (8 * ((length bits + 7) / 8))
              ((λ b, if Byte.eqb b x01 then x01 else x00) <$> bits)) as Hgen.
  { apply list_eq. intros k.
    destruct (decide (k < 8 * ((length bits + 7) / 8))) as [Hk|Hk].
    - rewrite lookup_bytesToBits by (by rewrite length_bitsToBytes).
      rewrite lookup_fit by done. f_equal.
      rewrite bitOf_spec, bitAt_bitsToBytes, list_lookup_fmap.
      destruct (bits !! k) as [b|]; cbn [fmap option_fmap option_map default].
      + destruct (Byte.eqb b x01) eqn:E.
        * apply Byte.byte_dec_bl in E. subst b. by rewrite bool_decide_eq_true_2.
        * rewrite bool_decide_eq_false_2; [done|].
          intros [= ->]. by rewrite Byte.byte_dec_lb in E.
      + by rewrite bool_decide_eq_false_2.
    - rewrite !lookup_ge_None_2; [done| |].
      + rewrite length_fit. lia.
      + rewrite length_bytesToBits, length_bitsToBytes. lia. }
  split; [exact Hgen|]. intros H01 Hmod. rewrite Hgen.
  assert (8 * ((length bits + 7) / 8) = length bits) as ->.
  { pose proof (Nat.Div0.div_mod (length bits) 8).
    assert ((length bits + 7) / 8 = length bits / 8) as ->; [|lia].
    symmetry. apply Nat.div_unique with 7; lia. }
  assert ((λ b, if Byte.eqb b x01 then x01 else x00) <$> bits = bits) as ->.
  { rewrite <- (list_fmap_id bits) at 2. apply list_fmap_ext.
    intros i b Hb. destruct (proj1 (Forall_lookup _ _) H01 i b Hb) as [-> | ->]; done. }
  unfold fit. by rewrite take_ge, Nat.sub_diag, app_nil_r.
Qed.

Lemma bitAt_app (a b : list byte) (i : nat) :
  bitAt (a ++ b) i
  = if decide (i < length a * 8) then bitAt a i else bitAt b (i - length a * 8).
Proof.
  unfold bitAt. pose proof (Nat.Div0.div_mod i 8). pose proof (Nat.mod_upper_bound i 8).
  case_decide as Hi.
  - rewrite lookup_total_app_l; [done|]. apply Nat.Div0.div_lt_upper_bound. lia.
  - rewrite lookup_total_app_r by (apply Nat.div_le_lower_bound; lia).
    replace ((i - length a * 8) / 8) with (i / 8 - length a).
    2:{ replace i with ((i - length a * 8) + length a * 8) at 1 by lia.
        rewrite Nat.div_add by lia. lia. }
    replace ((i - length a * 8) `mod` 8) with (i `mod` 8).
    2:{ replace i with ((i - length a * 8) + length a * 8) at 1 by lia.
        by rewrite Nat.Div0.mod_add. }
    done.
Qed.

(** X15: the codec and concatenation. Expanding a concatenation of byte
    sequences gives the concatenation of the expansions, so the stream
    that [Embed] writes is the expansion of the four length bytes followed
    by the payload; packing distributes over a concatenation whose first
    part has a multiple of 8 bits. *)
Theorem codec_concat (a b : list byte) :
  bytesToBits (a ++ b) = bytesToBits a ++ bytesToBits b
  ∧ envelope b
    = bytesToBits (BigEndian.PutUint32 (uint32 (N.of_nat (length b))) ++ b)
  ∧ (length a `mod` 8 = 0 →
     bitsToBytes (a ++ b) = bitsToBytes a ++ bitsToBytes b).
Proof.
  split; [apply bytesToBits_app|]. split; [symmetry; apply bytesToBits_app|].
  intros Hmod.
  pose proof (Nat.Div0.div_mod (length a) 8) as Ha.
  assert ((length a + 7) / 8 = length a / 8) as Hla
    by (symmetry; apply Nat.div_unique with 7; lia).
  assert (length (bitsToBytes a) * 8 = length a) as Hla'
    by (rewrite length_bitsToBytes, Hla; lia).
  apply bytes_ext.
  - rewrite length_app, !length_bitsToBytes, length_app, Hla.
    replace (length a + length b + 7) with (length b + 7 + length a / 8 * 8) by lia.
    rewrite Nat.div_add by lia. lia.
  - intros i _. rewrite bitAt_app, !bitAt_bitsToBytes, Hla'.
    case_decide as Hi.
    + by rewrite lookup_app_l.
    + by rewrite lookup_app_r by lia.
Qed.

(** ** The fractal types of the application *)

(** X16: the fractal types the application offers. [createEmbedTab]
    offers two fractal types and the handlers pass the chosen one on as
    [FractalParams.Type]; neither is the string ["Julia"] that
    [generateFractalPattern] tests for, so both choices give the
    Mandelbrot mask. *)
Theorem offered_types_are_mandelbrot (t : string) (width height : nat) (n : Z) (thr : float) :
  t ∈ main.fractalTypeOptions →
  generateFractalPattern width height
    {| Type_ := t; Iterations := n; Threshold := thr |}
  = generateFractalPattern width height
      {| Type_ := "Mandelbrot"; Iterations := n; Threshold := thr |}.
Proof.
  intros Ht. rewrite !generateFractalPattern_flat.
  apply list_fmap_ext. intros _ i _. unfold fractalPixel. cbn [Iterations].
  f_equal. apply escape_variant; [|done..]. cbn [Type_].
  unfold main.fractalTypeOptions in Ht.
  apply elem_of_cons in Ht as [-> | Ht]; [done|].
  apply elem_of_cons in Ht as [-> | Ht]; [done|].
  by apply not_elem_of_nil in Ht.
Qed.

Lemma offered_types_are_mandelbrot_witness :
  generateFractalPattern 6 4
    {| Type_ := "Жулиа"; Iterations := 30; Threshold := 2.0 |}
  = generateFractalPattern 6 4
      {| Type_ := "Mandelbrot"; Iterations := 30; Threshold := 2.0 |}.
Proof.
  apply (offered_types_are_mandelbrot "Жулиа" 6 4 30 2.0).
  unfold main.fractalTypeOptions. apply elem_of_cons. right. apply elem_of_cons. by left.
Defined.
